(** * The line-indexed document patch protocol of the chat application

    A shallow embedding of the three TypeScript functions that make up the
    protocol, and of the streaming completeness check of the message view:

    - [parseTextEditMarkup]   (the directive batch extractor),
    - [applyTextEditChanges]  (the patch applier, with its line bridge
                               [split] / [join] on the line feed),
    - [hasIncompleteXmlTags]  (the completeness check of ChatMessages.tsx).

    JavaScript strings are sequences of UTF-16 code units; they are modelled
    as lists of code units ([N]), so that the regular expression classes
    [\s], [\d] and [[^>]] are the ones of ECMAScript.  JavaScript numbers that
    hold line numbers and counts are modelled as unbounded integers ([Z]);
    the loss of precision of doubles above 2^53 is outside the model. *)

From Stdlib Require Import List ZArith NArith Lia Bool String Ascii Sorted
  Permutation.
Import ListNotations.

Local Open Scope string_scope.
Local Open Scope list_scope.
Local Open Scope Z_scope.

(* ================================================================== *)
(** ** JavaScript strings and arrays *)
(* ================================================================== *)

Module Js.

Definition code_unit := N.
Definition jsstring := list code_unit.

(** An ASCII literal as a JavaScript string. *)
Definition str (s : string) : jsstring :=
  map N_of_ascii (list_ascii_of_string s).

Definition LF : code_unit := 10%N.

Definition length {A} (l : list A) : Z := Z.of_nat (List.length l).

(** [s.split("\n")]: never the empty array, one element per line feed
    plus one. *)
Fixpoint split (s : jsstring) : list jsstring :=
  match s with
  | [] => [[]]
  | c :: t =>
      if N.eqb c LF then [] :: split t
      else match split t with
           | h :: r => (c :: h) :: r
           | [] => [[c]]
           end
  end.

(** [lines.join("\n")]. *)
Fixpoint join (lines : list jsstring) : jsstring :=
  match lines with
  | [] => []
  | [l] => l
  | l :: r => l ++ LF :: join r
  end.

(** [arr.splice(start, deleteCount, ...items)] on integer arguments, as
    Array.prototype.splice fixes it: a negative start counts from the end,
    the start is clamped to the array, the delete count to what is left. *)
Definition splice {A} (start deleteCount : Z) (items arr : list A) : list A :=
  let len := length arr in
  let actualStart :=
    if start <? 0 then Z.max (len + start) 0 else Z.min start len in
  let actualDeleteCount := Z.min (Z.max deleteCount 0) (len - actualStart) in
  firstn (Z.to_nat actualStart) arr ++ items
    ++ skipn (Z.to_nat (actualStart + actualDeleteCount)) arr.

(** White space and line terminators: the class [\s], and what
    [String.prototype.trim] strips. *)
Definition is_space (c : code_unit) : bool :=
  ((9 <=? c) && (c <=? 13) || (c =? 32) || (c =? 160) || (c =? 5760)
   || (8192 <=? c) && (c <=? 8202) || (c =? 8232) || (c =? 8233)
   || (c =? 8239) || (c =? 8287) || (c =? 12288) || (c =? 65279))%N.

(** The class [\d]. *)
Definition is_digit (c : code_unit) : bool := ((48 <=? c) && (c <=? 57))%N.

Fixpoint trimStart (s : jsstring) : jsstring :=
  match s with
  | c :: t => if is_space c then trimStart t else s
  | [] => []
  end.

Definition trim (s : jsstring) : jsstring :=
  rev (trimStart (rev (trimStart s))).

(** [parseInt(digits, 10)] on a string of decimal digits. *)
Definition parseInt (digits : jsstring) : Z :=
  fold_left (fun acc d => 10 * acc + (Z.of_N d - 48)) digits 0.

(** Canonicalisation of a code unit under the [i] flag (no [u] flag): only
    the ASCII letters are folded onto ASCII letters. *)
Definition canonicalize (c : code_unit) : code_unit :=
  (if (97 <=? c) && (c <=? 122) then c - 32 else c)%N.

End Js.

(* ================================================================== *)
(** ** Regular expressions, in the continuation style of ECMAScript *)
(* ================================================================== *)

(** A matcher takes the continuation of the pattern and the rest of the
  input; it answers [None] when no way of matching lets the continuation
  succeed, and otherwise the first success in ECMAScript's backtracking
  order, paired with what the matcher itself captured. *)

Module Regex.
Import Js.

Section Matchers.
Context {R : Type}.

Definition cont := jsstring -> option R.

Fixpoint lit_with (eqb : code_unit -> code_unit -> bool)
         (l : jsstring) (k : cont) (s : jsstring) : option R :=
  match l with
  | [] => k s
  | a :: l' =>
      match s with
      | c :: t => if eqb a c then lit_with eqb l' k t else None
      | [] => None
      end
  end.

(** A literal. *)
Definition lit : jsstring -> cont -> cont := lit_with N.eqb.

(** A literal under the [i] flag. *)
Definition lit_i : jsstring -> cont -> cont :=
  lit_with (fun a c => N.eqb (canonicalize a) (canonicalize c)).

(** [p*], greedy: one more [p] first, the continuation as fall-back. *)
Fixpoint star (p : code_unit -> bool) (k : cont) (s : jsstring)
  : option (jsstring * R) :=
  let stop := option_map (pair []) (k s) in
  match s with
  | c :: t =>
      if p c then
        match star p k t with
        | Some (b, r) => Some (c :: b, r)
        | None => stop
        end
      else stop
  | [] => stop
  end.

(** [p+], greedy. *)
Definition plus (p : code_unit -> bool) (k : cont) (s : jsstring)
  : option (jsstring * R) :=
  match s with
  | c :: t =>
      if p c then
        match star p k t with
        | Some (b, r) => Some (c :: b, r)
        | None => None
        end
      else None
  | [] => None
  end.

(** [[\s\S]*?], lazy: the continuation first, one more code unit as
    fall-back. *)
Fixpoint lazy_any (k : cont) (s : jsstring) : option (jsstring * R) :=
  match k s with
  | Some r => Some ([], r)
  | None =>
      match s with
      | c :: t =>
          match lazy_any k t with
          | Some (b, r) => Some (c :: b, r)
          | None => None
          end
      | [] => None
      end
  end.

(** [g | h]. *)
Definition alt (g h : cont -> cont) (k : cont) (s : jsstring) : option R :=
  match g k s with
  | Some r => Some r
  | None => h k s
  end.

End Matchers.

(** [(?: g )?], greedy: with the group first, without it as fall-back. *)
Definition opt {G R : Type}
           (g : (jsstring -> option R) -> jsstring -> option (G * R))
           (k : jsstring -> option R) (s : jsstring) : option (option G * R) :=
  match g k s with
  | Some (c, r) => Some (Some c, r)
  | None => option_map (pair None) (k s)
  end.

(** The end of the pattern: the match succeeds and leaves the rest. *)
Definition done (s : jsstring) : option jsstring := Some s.

(** A compiled pattern: tried at the head of the input, it answers its
    captures and the input left after the match. *)
Definition regex (C : Type) := jsstring -> option (C * jsstring).

(** The successive matches of a global pattern ([matchAll], or [match]
    under the [g] flag), each with its index: [skip] code units of the
    last match are still to be passed over. *)
Fixpoint scan {C} (re : regex C) (skip pos : nat) (s : jsstring)
  : list (nat * C) :=
  match s with
  | [] => []
  | _ :: t =>
      match skip with
      | S k => scan re k (S pos) t
      | O =>
          match re s with
          | Some (c, rest) =>
              (pos, c)
                :: scan re (List.length s - List.length rest - 1) (S pos) t
          | None => scan re 0 (S pos) t
          end
      end
  end.

Definition matchAll {C} (re : regex C) (s : jsstring) : list (nat * C) :=
  scan re 0 0 s.

(** [(s.match(re) || []).length] for a global pattern. *)
Definition count_matches {C} (re : regex C) (s : jsstring) : nat :=
  List.length (matchAll re s).

(** [re.test(s)] for a pattern without the [g] flag. *)
Definition test {C} (re : regex C) (s : jsstring) : bool :=
  match matchAll re s with
  | [] => false
  | _ :: _ => true
  end.

End Regex.

(* ================================================================== *)
(** ** Edit directives *)
(* ================================================================== *)

(** The [type] field of a [TextEditOperation]. *)
Inductive EditType := Insert | Replace | Delete.

(** [TextEditOperation]: the fields [count] and [content] are optional. *)
Record TextEditOperation := mkEdit {
  type : EditType;
  line : Z;
  count : option Z;
  content : option Js.jsstring
}.

Definition EditType_eqb (a b : EditType) : bool :=
  match a, b with
  | Insert, Insert | Replace, Replace | Delete, Delete => true
  | _, _ => false
  end.

(** [edit.count || 1]: an absent count and a count of 0 both read as 1. *)
Definition count_or_1 (c : option Z) : Z :=
  match c with
  | Some n => if n =? 0 then 1 else n
  | None => 1
  end.

(** The truth value of [edit.content]: absent and empty are both false. *)
Definition truthy (c : option Js.jsstring) : bool :=
  match c with
  | Some (_ :: _) => true
  | _ => false
  end.

(** The text of [edit.content], once it is known to be there. *)
Definition text_of (c : option Js.jsstring) : Js.jsstring :=
  match c with
  | Some s => s
  | None => []
  end.

Definition set_line (d : TextEditOperation) (l : Z) : TextEditOperation :=
  mkEdit (type d) l (count d) (content d).

(* ================================================================== *)
(** ** The directive batch extractor: [parseTextEditMarkup] *)
(* ================================================================== *)

Module Markup.
Import Js Regex.

Definition sp := is_space.
Definition digit := is_digit.

(** [line\s*=\s*"(\d+)"] and [count\s*=\s*"(\d+)"]: the capture is the run
    of digits. *)
Definition attribute {R} (name : string) (k : jsstring -> option R)
  : jsstring -> option (jsstring * R) :=
  fun s =>
    match
      lit (str name) (star sp (lit (str "=") (star sp (lit [34%N]
        (plus digit (lit [34%N] k)))))) s
    with
    | Some (_, (_, (digits, r))) => Some (digits, r)
    | None => None
    end.

(** [(?:\s+count\s*=\s*"(\d+)")?] *)
Definition count_attribute {R} (k : jsstring -> option R)
  : jsstring -> option (option jsstring * R) :=
  opt (fun k' s =>
         match plus sp (attribute "count" k') s with
         | Some (_, (digits, r)) => Some (digits, r)
         | None => None
         end) k.

(** [/<textedit:insert\s+line\s*=\s*"(\d+)"\s*>([\s\S]*?)<\/textedit:insert>/g]:
    the captures are [match[1]] and [match[2]]. *)
Definition insertRegex : regex (jsstring * jsstring) :=
  fun s =>
    match
      lit (str "<textedit:insert") (plus sp (attribute "line"
        (star sp (lit (str ">")
          (lazy_any (lit (str "</textedit:insert>") done)))))) s
    with
    | Some (_, (m1, (_, (m2, rest)))) => Some ((m1, m2), rest)
    | None => None
    end.

(** [/<textedit:replace\s+line\s*=\s*"(\d+)"(?:\s+count\s*=\s*"(\d+)")?\s*>([\s\S]*?)<\/textedit:replace>/g]:
    the captures are [match[1]], [match[2]] (absent when the group did not
    take part) and [match[3]]. *)
Definition replaceRegex : regex (jsstring * option jsstring * jsstring) :=
  fun s =>
    match
      lit (str "<textedit:replace") (plus sp (attribute "line"
        (count_attribute (star sp (lit (str ">")
          (lazy_any (lit (str "</textedit:replace>") done))))))) s
    with
    | Some (_, (m1, (m2, (_, (m3, rest))))) => Some ((m1, m2, m3), rest)
    | None => None
    end.

(** [/<textedit:delete\s+line\s*=\s*"(\d+)"(?:\s+count\s*=\s*"(\d+)")?\s*\/>/g] *)
Definition deleteRegex : regex (jsstring * option jsstring) :=
  fun s =>
    match
      lit (str "<textedit:delete") (plus sp (attribute "line"
        (count_attribute (star sp (lit (str "/>") done))))) s
    with
    | Some (_, (m1, (m2, (_, rest)))) => Some ((m1, m2), rest)
    | None => None
    end.

(** [match[2] ? parseInt(match[2], 10) : 1]: a capture that took part is a
    non-empty run of digits, hence true. *)
Definition parse_count (m : option jsstring) : Z :=
  match m with
  | Some ((_ :: _) as digits) => parseInt digits
  | _ => 1
  end.

(** The three [map] callbacks. *)
Definition insertion_of (m : jsstring * jsstring) : TextEditOperation :=
  let '(m1, m2) := m in
  mkEdit Insert (parseInt m1) None (Some m2).

Definition replacement_of (m : jsstring * option jsstring * jsstring)
  : TextEditOperation :=
  let '(m1, m2, m3) := m in
  mkEdit Replace (parseInt m1) (Some (parse_count m2)) (Some m3).

Definition deletion_of (m : jsstring * option jsstring) : TextEditOperation :=
  let '(m1, m2) := m in
  mkEdit Delete (parseInt m1) (Some (parse_count m2)) None.

(** The two [filter] callbacks. *)
Definition keep_insertion (edit : TextEditOperation) : bool :=
  line edit >? 0.

Definition keep_counted (edit : TextEditOperation) : bool :=
  (line edit >? 0) && (count_or_1 (count edit) >? 0).

(** The matches of one kind, mapped and filtered, each still with the index
    of its match in the trimmed message. *)
Definition located {C} (re : regex C) (of_match : C -> TextEditOperation)
           (keep : TextEditOperation -> bool) (trimmedMessage : jsstring)
  : list (nat * TextEditOperation) :=
  filter (fun m => keep (snd m))
         (map (fun m => (fst m, of_match (snd m))) (matchAll re trimmedMessage)).

Definition allInsertions (t : jsstring) : list (nat * TextEditOperation) :=
  located insertRegex insertion_of keep_insertion t.

Definition allReplacements (t : jsstring) : list (nat * TextEditOperation) :=
  located replaceRegex replacement_of keep_counted t.

Definition allDeletions (t : jsstring) : list (nat * TextEditOperation) :=
  located deleteRegex deletion_of keep_counted t.

(** [parseTextEditMarkup]: an empty message gives no edit; the balance of
    the tags is only logged; the result is the insertions, then the
    replacements, then the deletions. *)
Definition parseTextEditMarkup (message : jsstring) : list TextEditOperation :=
  match message with
  | [] => []
  | _ :: _ =>
      let trimmedMessage := trim message in
      map snd (allInsertions trimmedMessage
                 ++ allReplacements trimmedMessage
                 ++ allDeletions trimmedMessage)
  end.

(** *** The completeness check of the message view *)

(** [/<textedit:(insert|replace|delete)/], with or without the [i] flag. *)
Definition openTagRegex (l : jsstring -> (jsstring -> option jsstring)
                                 -> jsstring -> option jsstring)
  : regex unit :=
  fun s =>
    match
      l (str "<textedit:")
        (alt (l (str "insert")) (alt (l (str "replace")) (l (str "delete")))
             done) s
    with
    | Some rest => Some (tt, rest)
    | None => None
    end.

(** [/<\/textedit:(insert|replace)>|<textedit:delete[^>]*\/>/g] *)
Definition closeTagRegex : regex unit :=
  fun s =>
    match
      alt (fun k => lit (str "</textedit:")
                      (alt (lit (str "insert")) (lit (str "replace"))
                           (lit (str ">") k)))
          (fun k => lit (str "<textedit:delete")
                      (fun s' =>
                         match
                           star (fun c => negb (N.eqb c 62%N))
                                (lit (str "/>") k) s'
                         with
                         | Some (_, r) => Some r
                         | None => None
                         end))
          done s
    with
    | Some rest => Some (tt, rest)
    | None => None
    end.

(** [hasIncompleteXmlTags] of ChatMessages.tsx. *)
Definition hasIncompleteXmlTags (content : jsstring) : bool :=
  test (openTagRegex lit_i) content
  && negb (Nat.eqb (count_matches (openTagRegex lit) content)
                   (count_matches closeTagRegex content)).

(** The completeness oracle: the text holds no directive in flight. *)
Definition is_complete (text : jsstring) : bool :=
  negb (hasIncompleteXmlTags text).

End Markup.

(* ================================================================== *)
(** ** The patch applier: [applyTextEditChanges] *)
(* ================================================================== *)

Module Patch.
Import Js.

(** [editsCopy.sort((a, b) => a.line - b.line)]: the sort of an array is
    stable.  [insert_by_line] puts an edit, which stood before the others,
    before the first of them whose line is not smaller. *)
Fixpoint insert_by_line (e : TextEditOperation) (l : list TextEditOperation)
  : list TextEditOperation :=
  match l with
  | [] => [e]
  | d :: t => if line e <=? line d then e :: l else d :: insert_by_line e t
  end.

Fixpoint sort (l : list TextEditOperation) : list TextEditOperation :=
  match l with
  | [] => []
  | e :: t => insert_by_line e (sort t)
  end.

(** The validation at the head of the loop body: [true] when the edit is
    refused and the loop goes on to the next one ([continue]). *)
Definition invalid (edit : TextEditOperation) (lines : list jsstring) : bool :=
  let lineIndex := line edit - 1 in
  match type edit with
  | Insert => (lineIndex <? 0) || (lineIndex >? length lines + 1)
  | Replace | Delete => (lineIndex <? 0) || (lineIndex >=? length lines)
  end.

(** The [switch]: the lines after the edit, and [lineCountChange]. *)
Definition mutate (edit : TextEditOperation) (lines : list jsstring)
  : list jsstring * Z :=
  let lineIndex := line edit - 1 in
  match type edit with
  | Insert =>
      if truthy (content edit) then
        let newLines := split (text_of (content edit)) in
        let lineIndex :=
          if lineIndex >? length lines then length lines else lineIndex in
        (splice lineIndex 0 newLines lines, length newLines)
      else (lines, 0)
  | Replace =>
      if truthy (content edit) then
        let count := Z.min (count_or_1 (count edit)) (length lines - lineIndex) in
        let newLines := split (text_of (content edit)) in
        let lineIndex :=
          if lineIndex >=? length lines then Z.max 0 (length lines - 1)
          else lineIndex in
        (splice lineIndex count newLines lines, length newLines - count)
      else (lines, 0)
  | Delete =>
      let count := Z.min (count_or_1 (count edit)) (length lines - lineIndex) in
      (splice lineIndex count [] lines, - count)
  end.

(** The line above which the later edits are adjusted. *)
Definition adjustmentThreshold (edit : TextEditOperation) : Z :=
  match type edit with
  | Replace | Delete => line edit + count_or_1 (count edit) - 1
  | Insert => line edit
  end.

(** The body of the inner loop, on the later edit [d = editsCopy[j]];
    [len] is the number of lines after the edit. *)
Definition adjust (edit : TextEditOperation) (lineCountChange len : Z)
           (d : TextEditOperation) : TextEditOperation :=
  if line d >? adjustmentThreshold edit then
    let l := line d + lineCountChange in
    if l <=? 0 then set_line d 1
    else if negb (EditType_eqb (type d) Insert) && (l >? len) then
      match type d with
      | Replace | Delete => set_line d (Z.max 1 len)
      | Insert => set_line d l
      end
    else set_line d l
  else d.

(** The state of the outer loop: the working lines and [editsCopy].  The
    edits are values: [editsCopy] is a copy of the array and not of its
    objects, so that the loop writes the new line numbers into the objects
    of the caller, but [parseTextEditMarkup] builds one object per match,
    no object stands twice in a batch, and the caller drops the batch
    after the call. *)
Definition state : Type := list jsstring * list TextEditOperation.

(** One turn of the outer loop, at index [i]. *)
Definition body (i : nat) (st : state) : state :=
  let '(lines, editsCopy) := st in
  match nth_error editsCopy i with
  | None => st
  | Some edit =>
      if invalid edit lines then st
      else
        let '(lines', lineCountChange) := mutate edit lines in
        if lineCountChange =? 0 then (lines', editsCopy)
        else
          (lines',
           firstn (S i) editsCopy
             ++ map (adjust edit lineCountChange (length lines'))
                    (skipn (S i) editsCopy))
  end.

(** [for (let i = 0; i < editsCopy.length; i++)] *)
Definition run (st : state) : state :=
  fold_left (fun st i => body i st) (seq 0 (List.length (snd st))) st.

(** The applier on lines: what [applyTextEditChanges] does between the
    split of the content and the join of the result. *)
Definition apply (lines : list jsstring) (edits : list TextEditOperation)
  : list jsstring :=
  fst (run (lines, sort edits)).

(** [applyTextEditChanges]. *)
Definition applyTextEditChanges (content : jsstring)
           (edits : list TextEditOperation) : jsstring :=
  match edits with
  | [] => content
  | _ :: _ => join (apply (split content) edits)
  end.

(** The document text bridge. *)
Definition to_lines (doc_text : jsstring) : list jsstring := split doc_text.
Definition from_lines (lines : list jsstring) : jsstring := join lines.

End Patch.


(* ================================================================== *)
(** ** The vocabulary of the statements *)
(* ================================================================== *)

Section Vocabulary.
Import Js Regex Markup Patch.

(** A quoted attribute value, for writing markup. *)
Definition quoted (s : string) : Js.jsstring :=
  (34%N :: Js.str s) ++ [34%N].

(** The lines of a document given line by line. *)
Definition doc (l : list string) : list Js.jsstring := map Js.str l.

(** An edit with a content, as the extractor builds it. *)
Definition insert_at (l : Z) (c : Js.jsstring) : TextEditOperation :=
  mkEdit Insert l None (Some c).

Definition replace_at (l n : Z) (c : Js.jsstring) : TextEditOperation :=
  mkEdit Replace l (Some n) (Some c).

Definition delete_at (l n : Z) : TextEditOperation :=
  mkEdit Delete l (Some n) None.

(** The order of the sort. *)
Definition line_le (a b : TextEditOperation) : Prop := line a <= line b.

(** The insert of [edit] made at the 0-based position [at_]. *)
Definition inserted (at_ : Z) (edit : TextEditOperation)
           (lines : list jsstring) : list jsstring :=
  firstn (Z.to_nat at_) lines ++ split (text_of (content edit))
    ++ skipn (Z.to_nat at_) lines.

(** The number of lines a replace or a delete really touches, and the last
    line it touches. *)
Definition effective_count (edit : TextEditOperation)
           (lines : list jsstring) : Z :=
  Z.min (count_or_1 (count edit)) (length lines - (line edit - 1)).

Definition last_line_touched (edit : TextEditOperation)
           (lines : list jsstring) : Z :=
  line edit + effective_count edit lines - 1.

(** An edit of the result, with its index, is the image of a match of the
    pattern at that index of the trimmed message. *)
Definition matched_at {C} (re : regex C) (of_match : C -> TextEditOperation)
           (t : jsstring) (m : nat * TextEditOperation) : Prop :=
  exists c rest, re (skipn (fst m) t) = Some (c, rest) /\ snd m = of_match c.

(** The indices grow along the list. *)
Definition in_text_order (l : list (nat * TextEditOperation)) : Prop :=
  StronglySorted lt (map fst l).

(** A replace of line 1 followed, in the text, by an insert at line 2. *)
Definition replace_then_insert : jsstring :=
  str "<textedit:replace line=" ++ quoted "1" ++ str ">a</textedit:replace>"
    ++ str "<textedit:insert line=" ++ quoted "2" ++ str ">b</textedit:insert>".

(** The markers of one kind, counted apart, as the specification words
    the balance: the opening marker of the kind, and its closing marker,
    which for a delete is the self-closing form. *)
Definition kind_name (k : EditType) : string :=
  match k with
  | Insert => "insert"
  | Replace => "replace"
  | Delete => "delete"
  end.

Definition openingRegex (k : EditType) : regex unit :=
  fun s =>
    match lit (str "<textedit:") (lit (str (kind_name k)) done) s with
    | Some rest => Some (tt, rest)
    | None => None
    end.

Definition closingRegex (k : EditType) : regex unit :=
  fun s =>
    match
      match k with
      | Insert | Replace =>
          lit (str "</textedit:") (lit (str (kind_name k)) (lit (str ">") done)) s
      | Delete =>
          lit (str "<textedit:delete")
              (fun s' =>
                 match
                   star (fun c => negb (N.eqb c 62%N)) (lit (str "/>") done) s'
                 with
                 | Some (_, r) => Some r
                 | None => None
                 end) s
      end
    with
    | Some rest => Some (tt, rest)
    | None => None
    end.

Definition openings (k : EditType) (text : jsstring) : nat :=
  count_matches (openingRegex k) text.

Definition closings (k : EditType) (text : jsstring) : nat :=
  count_matches (closingRegex k) text.

Definition balanced_per_kind (text : jsstring) : bool :=
  forallb (fun k => Nat.eqb (openings k text) (closings k text))
          [Insert; Replace; Delete].

(** An insert closed by the closing marker of a replace. *)
Definition insert_closed_as_replace : jsstring :=
  str "<textedit:insert line=" ++ quoted "1" ++ str ">x</textedit:replace>".

End Vocabulary.

(* ================================================================== *)
(** ** The other helpers of the chat application *)
(* ================================================================== *)

(** More of the string methods. *)
Module JsMore.
Import Js Regex.

(** The relative index of [slice]: counted from the end when negative, and
    kept within the string. *)
Definition relative_index (len i : Z) : Z :=
  if i <? 0 then Z.max (len + i) 0 else Z.min i len.

(** [s.slice(start, end)]. *)
Definition slice (s : jsstring) (start end_ : Z) : jsstring :=
  let len := length s in
  let from := relative_index len start in
  let to := relative_index len end_ in
  firstn (Z.to_nat (Z.max (to - from) 0)) (skipn (Z.to_nat from) s).

(** [s.slice(start)]. *)
Definition slice_from (s : jsstring) (start : Z) : jsstring :=
  slice s start (length s).

(** [s.lastIndexOf(c)] for a single code unit: the index of the last [c],
    or -1; [pos] is the index of the head of [s], [found] the last index
    seen so far. *)
Fixpoint lastIndexOf_from (c : code_unit) (s : jsstring) (pos found : Z) : Z :=
  match s with
  | [] => found
  | x :: t => lastIndexOf_from c t (pos + 1) (if N.eqb x c then pos else found)
  end.

Definition lastIndexOf (c : code_unit) (s : jsstring) : Z :=
  lastIndexOf_from c s 0 (-1).

(** [s.replace(re, "")] for a global pattern: the text with the successive
    matches left out; [skip] code units of the last match are still to be
    passed over. *)
Fixpoint remove_matches {C} (re : regex C) (skip : nat) (s : jsstring)
  : jsstring :=
  match s with
  | [] => []
  | c :: t =>
      match skip with
      | S k => remove_matches re k t
      | O =>
          match re s with
          | Some (_, rest) =>
              remove_matches re (List.length s - List.length rest - 1) t
          | None => c :: remove_matches re 0 t
          end
      end
  end.

Definition remove_all {C} (re : regex C) (s : jsstring) : jsstring :=
  remove_matches re 0 s.

(** A pattern whose captures are not used. *)
Definition no_capture (m : jsstring -> option jsstring) : regex unit :=
  fun s =>
    match m s with
    | Some rest => Some (tt, rest)
    | None => None
    end.

(** [[^>]*] before the rest of a pattern. *)
Definition not_gt_star (k : jsstring -> option jsstring)
  : jsstring -> option jsstring :=
  fun s =>
    match star (fun c => negb (N.eqb c 62%N)) k s with
    | Some (_, r) => Some r
    | None => None
    end.

End JsMore.

(** [parseAppControlMarkup]. *)
Module AppControl.
Import Js Regex Markup.

Inductive OperationType := launch | close.

Record AppControlOperation := mkOperation {
  type : OperationType;
  id : jsstring
}.

(** [/<app:launch\s+id\s*=\s*Q([^Q]+)Q\s*\/>/g], where Q stands for the
    double quote, and the same for [close]: the capture is the id. *)
Definition tagRegex (name : string) : regex jsstring :=
  fun s =>
    match
      lit (str name) (plus sp (lit (str "id") (star sp (lit (str "=")
        (star sp (lit [34%N] (plus (fun c => negb (N.eqb c 34%N))
          (lit [34%N] (star sp (lit (str "/>") done)))))))))) s
    with
    | Some (_, (_, (_, (m1, (_, rest))))) => Some (m1, rest)
    | None => None
    end.

Definition launchRegex : regex jsstring := tagRegex "<app:launch".
Definition closeRegex : regex jsstring := tagRegex "<app:close".

(** The operations of one kind, each with the index of its match. *)
Definition operations_of (re : regex jsstring) (t : OperationType)
           (message : jsstring) : list (nat * AppControlOperation) :=
  map (fun m => (fst m, mkOperation t (snd m))) (matchAll re message).

(** The two [while] loops on [exec]: the launches, then the closes. *)
Definition parseAppControlMarkup (message : jsstring)
  : list AppControlOperation :=
  map snd (operations_of launchRegex launch message)
    ++ map snd (operations_of closeRegex close message).

End AppControl.

(** [cleanAppControlMarkup] and [cleanTextEditMarkup] of the message
    view. *)
Module Clean.
Import Js Regex JsMore.

(** [/<app:launch[^>]*\/>/g], [/<app:close[^>]*\/>/g] and
    [/<textedit:delete[^>]*\/>/gs]. *)
Definition selfClosedRegex (name : string) : regex unit :=
  no_capture (lit (str name) (not_gt_star (lit (str "/>") done))).

(** [/<textedit:insert[^>]*>.*?<\/textedit:insert>/gs] and the same for
    [replace]: under the [s] flag the dot is any code unit. *)
Definition pairedRegex (open_ close_ : string) : regex unit :=
  no_capture
    (lit (str open_) (not_gt_star (lit (str ">")
       (fun s =>
          match lazy_any (lit (str close_) done) s with
          | Some (_, r) => Some r
          | None => None
          end)))).

Definition cleanAppControlMarkup (message : jsstring) : jsstring :=
  trim (remove_all (selfClosedRegex "<app:close")
          (remove_all (selfClosedRegex "<app:launch") message)).

Definition cleanTextEditMarkup (message : jsstring) : jsstring :=
  trim (remove_all (selfClosedRegex "<textedit:delete")
          (remove_all (pairedRegex "<textedit:replace" "</textedit:replace>")
             (remove_all (pairedRegex "<textedit:insert" "</textedit:insert>")
                message))).

End Clean.

(** The colour of a user name in the message view. *)
Module Colors.
Import Js.

Definition userColors : list jsstring :=
  map str ["bg-pink-100 text-black"; "bg-purple-100 text-black";
           "bg-indigo-100 text-black"; "bg-teal-100 text-black";
           "bg-lime-100 text-black"; "bg-amber-100 text-black";
           "bg-cyan-100 text-black"; "bg-rose-100 text-black"].

Definition fallbackColor : jsstring := str "bg-gray-100 text-black".

(** The [reduce]: the sum of the code units of the name. *)
Definition hash (username : jsstring) : Z :=
  fold_left (fun acc char => acc + Z.of_N char) username 0.

(** [getUserColorClass]: the name is absent ([None]) or a string; the
    result is [None] where the array has no element at the index. *)
Definition getUserColorClass (username : option jsstring) : option jsstring :=
  match username with
  | None | Some [] => Some fallbackColor
  | Some u => nth_error userColors (Z.to_nat (hash u mod length userColors))
  end.

End Colors.

(** [truncateFilename]. *)
Module Filename.
Import Js JsMore.

Definition DOT : code_unit := 46%N.
Definition ellipsis : jsstring := str "...".

(** The second argument is 20 when it is not given. *)
Definition truncateFilename (filename : jsstring) (maxLength_arg : option Z)
  : jsstring :=
  let maxLength := match maxLength_arg with Some m => m | None => 20 end in
  if length filename <=? maxLength then filename
  else
    let lastDotIndex := lastIndexOf DOT filename in
    let extension :=
      if lastDotIndex =? -1 then [] else slice_from filename lastDotIndex in
    let nameLength := maxLength - length extension - 3 in
    if nameLength <=? 0 then slice filename 0 (maxLength - 3) ++ ellipsis
    else
      let namePart :=
        slice filename 0
              (if lastDotIndex =? -1 then length filename else lastDotIndex) in
      slice namePart 0 nameLength ++ ellipsis ++ extension.

End Filename.

(** [processInlineMarkdown] and [extractTextFromContentNode]: the inline
    formatting of a line of a document, and its way back to text. *)
Module Inline.
Import Js Regex.

(** The dot of a pattern without the [s] flag: any code unit but a line
    terminator. *)
Definition is_dot (c : code_unit) : bool :=
  negb ((c =? 10) || (c =? 13) || (c =? 8232) || (c =? 8233))%N.

Section Lazy.
Context {R : Type}.

(** [p*?], lazy: the continuation first, one more [p] as fall-back. *)
Fixpoint lazy_star (p : code_unit -> bool) (k : jsstring -> option R)
         (s : jsstring) : option (jsstring * R) :=
  match k s with
  | Some r => Some ([], r)
  | None =>
      match s with
      | c :: t =>
          if p c then
            match lazy_star p k t with
            | Some (b, r) => Some (c :: b, r)
            | None => None
            end
          else None
      | [] => None
      end
  end.

(** [p+?], lazy. *)
Definition lazy_plus (p : code_unit -> bool) (k : jsstring -> option R)
           (s : jsstring) : option (jsstring * R) :=
  match s with
  | c :: t =>
      if p c then
        match lazy_star p k t with
        | Some (b, r) => Some (c :: b, r)
        | None => None
        end
      else None
  | [] => None
  end.

End Lazy.

(** The equality of two strings. *)
Fixpoint string_eqb (a b : jsstring) : bool :=
  match a, b with
  | [], [] => true
  | x :: a', y :: b' => N.eqb x y && string_eqb a' b'
  | _, _ => false
  end.

(** [text.substring(a, b)]: the two indices are kept within the text and
    swapped when the first is the greater. *)
Definition substring (text : jsstring) (a b : nat) : jsstring :=
  let a' := Nat.min a (List.length text) in
  let b' := Nat.min b (List.length text) in
  firstn (Nat.max a' b' - Nat.min a' b') (skipn (Nat.min a' b') text).

(** A mark of a text node: its type and, for a link, the [href] of its
    [attrs]. *)
Record Mark := mkMark {
  mark_type : jsstring;
  href : option jsstring
}.

(** A text node: [{ type: "text", text, marks }]; no [marks] is the empty
    list. *)
Record TextNode := mkTextNode {
  node_type : jsstring;
  text : option jsstring;
  marks : list Mark
}.

(** What [extractTextFromContentNode] reads of a node: its [content]. *)
Record ContentNode := mkContentNode {
  content : option (list TextNode)
}.

(** An element of [allMatches]. *)
Record InlineMatch := mkMatch {
  start : nat;
  end_ : nat;
  match_content : jsstring;
  mark : jsstring;
  url : option jsstring
}.

(** The captures of a pattern: [match[1]], [match[2]] for a link, and the
    length of [match[0]]. *)
Definition captures : Type := jsstring * option jsstring * nat.

(** [/\*\*(.+?)\*\*/g] and the four patterns of the same shape. *)
Definition delimited (open_ close_ : string) : regex captures :=
  fun s =>
    match lit (str open_) (lazy_plus is_dot (lit (str close_) done)) s with
    | Some (m1, rest) =>
        Some ((m1, None, (List.length s - List.length rest)%nat), rest)
    | None => None
    end.

(** [/\[(.+?)\]\((.+?)\)/g] *)
Definition link : regex captures :=
  fun s =>
    match
      lit (str "[") (lazy_plus is_dot (lit (str "](")
        (lazy_plus is_dot (lit (str ")") done)))) s
    with
    | Some (m1, (m2, rest)) =>
        Some ((m1, Some m2, (List.length s - List.length rest)%nat), rest)
    | None => None
    end.

Definition patterns : list (regex captures * jsstring) :=
  [(delimited "**" "**", str "bold");
   (delimited "*" "*", str "italic");
   (delimited "_" "_", str "italic");
   (delimited "`" "`", str "code");
   (delimited "~~" "~~", str "strike");
   (link, str "link")].

(** The [while] loop on [exec] for one pattern. *)
Definition matches_of (text : jsstring) (pattern : regex captures * jsstring)
  : list InlineMatch :=
  map (fun m =>
         let '(index, (m1, m2, len)) := m in
         mkMatch index (index + len) m1 (snd pattern) m2)
      (matchAll (fst pattern) text).

(** [allMatches] after the [forEach] on the patterns. *)
Definition allMatches (text : jsstring) : list InlineMatch :=
  flat_map (matches_of text) patterns.

(** [allMatches.sort((a, b) => a.start - b.start)], a stable sort. *)
Fixpoint insert_by_start (m : InlineMatch) (l : list InlineMatch)
  : list InlineMatch :=
  match l with
  | [] => [m]
  | x :: t => if (start m <=? start x)%nat then m :: l
              else x :: insert_by_start m t
  end.

Fixpoint sort_by_start (l : list InlineMatch) : list InlineMatch :=
  match l with
  | [] => []
  | m :: t => insert_by_start m (sort_by_start t)
  end.

(** The two nested loops that remove the overlapping matches.  A turn of
    the outer loop, at index [i], runs the inner loop over the later
    matches and removes those that start before the end of the match at
    [i]; the matches up to [i] are left for good.  [turns] is the number of
    turns still allowed, [todo] the matches from index [i] on. *)
Fixpoint remove_overlaps (turns : nat) (todo : list InlineMatch)
  : list InlineMatch :=
  match turns, todo with
  | S turns', m :: later =>
      m :: remove_overlaps turns'
             (filter (fun x => negb (start x <? end_ m)%nat) later)
  | _, _ => todo
  end.

Definition formatted (m : InlineMatch) : TextNode :=
  if string_eqb (mark m) (str "link")
  then mkTextNode (str "text") (Some (match_content m))
                  [mkMark (str "link") (url m)]
  else mkTextNode (str "text") (Some (match_content m))
                  [mkMark (mark m) None].

Definition plain (t : jsstring) : TextNode :=
  mkTextNode (str "text") (Some t) [].

(** The [for ... of] loop on the matches, from [currentPosition] on, and
    the rest of the text after it. *)
Fixpoint assemble (text : jsstring) (currentPosition : nat)
         (ms : list InlineMatch) : list TextNode :=
  match ms with
  | [] =>
      if (currentPosition <? List.length text)%nat
      then [plain (substring text currentPosition (List.length text))]
      else []
  | m :: rest =>
      (if (currentPosition <? start m)%nat
       then [plain (substring text currentPosition (start m))]
       else [])
        ++ formatted m :: assemble text (end_ m) rest
  end.

Definition processInlineMarkdown (text : jsstring) : list TextNode :=
  let sorted := sort_by_start (allMatches text) in
  assemble text 0 (remove_overlaps (List.length sorted) sorted).

(** The [switch] on the type of a mark. *)
Definition apply_mark (t : jsstring) (m : Mark) : jsstring :=
  if string_eqb (mark_type m) (str "bold") then str "**" ++ t ++ str "**"
  else if string_eqb (mark_type m) (str "italic") then str "*" ++ t ++ str "*"
  else if string_eqb (mark_type m) (str "code") then str "`" ++ t ++ str "`"
  else if string_eqb (mark_type m) (str "strike") then str "~~" ++ t ++ str "~~"
  else if string_eqb (mark_type m) (str "link") then
    match href m with
    | Some ((_ :: _) as h) => str "[" ++ t ++ str "](" ++ h ++ str ")"
    | _ => t
    end
  else t.

(** The text of one node: [textNode.text || ""], then the marks in their
    order. *)
Definition node_text (n : TextNode) : jsstring :=
  fold_left apply_mark (marks n)
            (match text n with Some t => t | None => [] end).

(** [extractTextFromContentNode]. *)
Definition extractTextFromContentNode (node : ContentNode) : jsstring :=
  match content node with
  | None => []
  | Some nodes => List.concat (map node_text nodes)
  end.

End Inline.

Section MoreVocabulary.
Import Js Regex Markup Patch.

(** An edit as the applier expects it: a line of 1 or more, a count that
    reads as 1 or more, and the fields of its kind. *)
Definition well_formed (edit : TextEditOperation) : Prop :=
  1 <= line edit
  /\ 1 <= count_or_1 (count edit)
  /\ match type edit with
     | Insert => count edit = None /\ content edit <> None
     | Replace =>
         (exists n, count edit = Some n /\ 0 <= n) /\ content edit <> None
     | Delete =>
         (exists n, count edit = Some n /\ 0 <= n) /\ content edit = None
     end.

(** The closing tag of a kind. *)
Definition closing_tag (k : EditType) : jsstring :=
  str "</textedit:" ++ str (kind_name k) ++ str ">".

(** [l] occurs in [s]. *)
Definition occurs_in (l s : jsstring) : Prop :=
  exists u v, s = u ++ l ++ v.

(** The code unit of the opening angle bracket and of the double quote. *)
Definition LT : code_unit := 60%N.
Definition QUOTE : code_unit := 34%N.

(** [s] is [t] with some code units left out. *)
Inductive left_out : jsstring -> jsstring -> Prop :=
| left_out_nil : left_out [] []
| left_out_keep c s t : left_out s t -> left_out (c :: s) (c :: t)
| left_out_drop c s t : left_out s t -> left_out s (c :: t).

(** The code unit of the underscore. *)
Definition UNDERSCORE : code_unit := 95%N.

(** What [extractTextFromContentNode] writes for the node of a match. *)
Definition written (m : Inline.InlineMatch) : jsstring :=
  Inline.node_text (Inline.formatted m).

(** The match [m] lies in [text], and what is written for it is the piece
    of the text it covers. *)
Definition covers (text : jsstring) (m : Inline.InlineMatch) : Prop :=
  (Inline.start m <= Inline.end_ m <= List.length text)%nat
  /\ Inline.substring text (Inline.start m) (Inline.end_ m) = written m.

(** The matches follow one another from [bound] on: none starts before the
    one before it ends. *)
Fixpoint in_a_row (bound : nat) (ms : list Inline.InlineMatch) : Prop :=
  match ms with
  | [] => True
  | m :: rest => (bound <= Inline.start m)%nat /\ in_a_row (Inline.end_ m) rest
  end.




End MoreVocabulary.

(* ================================================================== *)
(** ** The document text bridge *)
(* ================================================================== *)

Section Bridge.
Import Js Patch.

Lemma split_not_nil (s : jsstring) : split s <> [].
Proof.
  destruct s as [|c t]; simpl; [discriminate|].
  destruct (N.eqb c LF); [discriminate|].
  destruct (split t); discriminate.
Qed.

Lemma join_cons (l : jsstring) (r : list jsstring) :
  r <> [] -> join (l :: r) = l ++ LF :: join r.
Proof. destruct r; [congruence | reflexivity]. Qed.

Lemma join_split (s : jsstring) : join (split s) = s.
Proof.
  induction s as [|c t IH]; [reflexivity|].
  simpl split. destruct (N.eqb_spec c LF) as [->|Hc].
  - rewrite join_cons by apply split_not_nil. now rewrite IH.
  - pose proof (split_not_nil t) as Hne.
    destruct (split t) as [|h r]; [congruence|].
    rewrite <- IH. destruct r; reflexivity.
Qed.

(** C8. Splitting a document text on line feeds and joining the lines with
    one line feed gives the text back, for every text: a trailing line feed
    is kept as a last empty line, so no input has to be set aside. *)
Theorem from_lines_to_lines (s : jsstring) : from_lines (to_lines s) = s.
Proof. unfold from_lines, to_lines. apply join_split. Qed.

End Bridge.

(* ================================================================== *)
(** ** The patch applier *)
(* ================================================================== *)

Section Applier.
Import Js Patch.

(** The sort puts the edits in ascending order of their lines and keeps
    the edits of one line in the order they came in. *)
Lemma insert_by_line_In (e d : TextEditOperation) (l : list TextEditOperation) :
  In d (insert_by_line e l) -> d = e \/ In d l.
Proof.
  induction l as [|x t IH]; simpl.
  - intros [<- | []]; now left.
  - destruct (line e <=? line x); simpl; intros [<- | H]; auto.
    destruct (IH H); auto.
Qed.

Lemma insert_by_line_sorted (e : TextEditOperation)
      (l : list TextEditOperation) :
  StronglySorted line_le l -> StronglySorted line_le (insert_by_line e l).
Proof.
  induction l as [|x t IH]; simpl; intros Hs.
  - repeat constructor.
  - apply StronglySorted_inv in Hs. destruct Hs as [Hs Hall].
    destruct (Z.leb_spec (line e) (line x)).
    + constructor; [now constructor|].
      constructor; [exact H|]. rewrite Forall_forall in *.
      intros d Hd. specialize (Hall d Hd). unfold line_le in *. lia.
    + constructor; [now apply IH|]. rewrite Forall_forall in *.
      intros d Hd. apply insert_by_line_In in Hd. destruct Hd as [-> | Hd].
      * unfold line_le. lia.
      * now apply Hall.
Qed.

Lemma sort_sorted (l : list TextEditOperation) :
  StronglySorted line_le (sort l).
Proof.
  induction l; simpl; [constructor | now apply insert_by_line_sorted].
Qed.

Lemma insert_by_line_stable (e : TextEditOperation)
      (l : list TextEditOperation) (n : Z) :
  filter (fun d => line d =? n) (insert_by_line e l)
  = filter (fun d => line d =? n) (e :: l).
Proof.
  induction l as [|x t IH]; [reflexivity|]. cbn [insert_by_line].
  destruct (Z.leb_spec (line e) (line x)); [reflexivity|].
  cbn [filter] in *. rewrite IH.
  destruct (Z.eqb_spec (line x) n), (Z.eqb_spec (line e) n);
    reflexivity || lia.
Qed.

Lemma sort_stable (l : list TextEditOperation) (n : Z) :
  filter (fun d => line d =? n) (sort l) = filter (fun d => line d =? n) l.
Proof.
  induction l as [|e t IH]; [reflexivity|]. cbn [sort].
  rewrite insert_by_line_stable. cbn [filter]. now rewrite IH.
Qed.

(** A turn of the loop keeps the number of edits: the bound of the loop is
    the same at every turn. *)
Lemma body_length (i : nat) (st : state) :
  List.length (snd (body i st)) = List.length (snd st).
Proof.
  destruct st as [lines editsCopy]. unfold body.
  destruct (nth_error editsCopy i) as [edit|]; [|reflexivity].
  destruct (invalid edit lines); [reflexivity|].
  destruct (mutate edit lines) as [lines' change].
  destruct (change =? 0); [reflexivity|]. cbn [snd].
  rewrite <- (firstn_skipn (S i) editsCopy) at 3.
  now rewrite !length_app, length_map.
Qed.

(** C9. With no edit the applier gives the document back: the lines on
    the line array, the content itself on the text. *)
Theorem apply_empty_batch (lines : list jsstring) (content : jsstring) :
  apply lines [] = lines /\ applyTextEditChanges content [] = content.
Proof. split; reflexivity. Qed.

(** C1. An insert of two lines at line 2 moves the replace of line 4 to
    line 6: the replace hits the former fourth line. *)
Theorem cascading_shift :
  apply (doc ["L1"; "L2"; "L3"; "L4"; "L5"])
        [insert_at 2 (str "A" ++ LF :: str "B"); replace_at 4 1 (str "R")]
  = doc ["L1"; "A"; "B"; "L2"; "L3"; "R"; "L5"]
  /\ applyTextEditChanges
       (join (doc ["L1"; "L2"; "L3"; "L4"; "L5"]))
       [insert_at 2 (str "A" ++ LF :: str "B"); replace_at 4 1 (str "R")]
     = join (doc ["L1"; "A"; "B"; "L2"; "L3"; "R"; "L5"]).
Proof. split; vm_compute; reflexivity. Qed.

(** A batch of one edit: the edit is refused, or the lines are those of
    the [switch]. *)
Lemma apply_single (lines : list jsstring) (edit : TextEditOperation) :
  apply lines [edit]
  = if invalid edit lines then lines else fst (mutate edit lines).
Proof.
  unfold apply, run; simpl. destruct (invalid edit lines); [reflexivity|].
  destruct (mutate edit lines) as [lines' change]; simpl.
  destruct (change =? 0); reflexivity.
Qed.

Lemma applyTextEditChanges_single (content : jsstring)
      (edit : TextEditOperation) :
  applyTextEditChanges content [edit] = join (apply (split content) [edit]).
Proof. reflexivity. Qed.

Lemma invalid_out_of_range (lines : list jsstring) (edit : TextEditOperation) :
  type edit <> Insert ->
  ~ (0 <= line edit - 1 < length lines) ->
  invalid edit lines = true.
Proof.
  intros Hty Hrange. unfold invalid.
  destruct (type edit); [congruence| |];
    rewrite Z.geb_leb;
    destruct (Z.ltb_spec (line edit - 1) 0);
    destruct (Z.leb_spec (length lines) (line edit - 1)); simpl; lia.
Qed.

(** C7. A replace or a delete whose index lies outside the lines is
    skipped: the turn of the loop leaves the lines and the later edits as
    they are, and the applier, on that edit alone, gives the document back. *)
Theorem out_of_range_skip (lines : list jsstring) (edit : TextEditOperation) :
  type edit = Replace \/ type edit = Delete ->
  ~ (0 <= line edit - 1 < length lines) ->
  (forall i editsCopy,
      nth_error editsCopy i = Some edit ->
      body i (lines, editsCopy) = (lines, editsCopy))
  /\ apply lines [edit] = lines
  /\ (forall content,
         split content = lines ->
         applyTextEditChanges content [edit] = content).
Proof.
  intros Hty Hrange.
  assert (Hinv : invalid edit lines = true).
  { apply invalid_out_of_range; [destruct Hty; congruence | exact Hrange]. }
  repeat split.
  - intros i editsCopy Hi. unfold body. now rewrite Hi, Hinv.
  - now rewrite apply_single, Hinv.
  - intros content <-.
    now rewrite applyTextEditChanges_single, apply_single, Hinv, join_split.
Qed.

Lemma out_of_range_skip_witness :
  apply (doc ["a"; "b"; "c"]) [replace_at 10 1 (str "X")]
  = doc ["a"; "b"; "c"].
Proof.
  apply (out_of_range_skip (doc ["a"; "b"; "c"]) (replace_at 10 1 (str "X"))).
  - left; reflexivity.
  - vm_compute. intros [_ H]; discriminate H.
Defined.

(** What a turn of the loop leaves in the lines. *)
Lemma fst_body (lines : list jsstring) (editsCopy : list TextEditOperation)
      (i : nat) (edit : TextEditOperation) :
  nth_error editsCopy i = Some edit ->
  fst (body i (lines, editsCopy))
  = if invalid edit lines then lines else fst (mutate edit lines).
Proof.
  intros Hi. unfold body. rewrite Hi.
  destruct (invalid edit lines); [reflexivity|].
  destruct (mutate edit lines) as [lines' change]; simpl.
  destruct (change =? 0); reflexivity.
Qed.

Lemma mutate_no_content (lines : list jsstring) (edit : TextEditOperation) :
  type edit = Insert \/ type edit = Replace ->
  truthy (content edit) = false ->
  mutate edit lines = (lines, 0).
Proof.
  intros [Hty|Hty] Hc; unfold mutate; now rewrite Hty, Hc.
Qed.

(** C10. An insert or a replace whose content is absent or empty changes
    nothing: the turn of the loop leaves the lines and the later edits as
    they are (no empty line is inserted, no line number is moved), and the
    applier, on that edit alone, gives the lines back. *)
Theorem empty_content_noop (lines : list jsstring) (edit : TextEditOperation) :
  type edit = Insert \/ type edit = Replace ->
  content edit = None \/ content edit = Some [] ->
  (forall i editsCopy,
      nth_error editsCopy i = Some edit ->
      body i (lines, editsCopy) = (lines, editsCopy))
  /\ apply lines [edit] = lines.
Proof.
  intros Hty Hc.
  assert (Hfalse : truthy (content edit) = false)
    by (destruct Hc as [-> | ->]; reflexivity).
  pose proof (mutate_no_content lines edit Hty Hfalse) as Hm.
  split.
  - intros i editsCopy Hi. unfold body. rewrite Hi, Hm.
    destruct (invalid edit lines); reflexivity.
  - rewrite apply_single, Hm. destruct (invalid edit lines); reflexivity.
Qed.

Lemma empty_content_noop_witness :
  body 0 (doc ["a"; "b"], [insert_at 2 []; delete_at 2 1])
  = (doc ["a"; "b"], [insert_at 2 []; delete_at 2 1]).
Proof.
  apply (empty_content_noop (doc ["a"; "b"]) (insert_at 2 [])).
  - left; reflexivity.
  - right; reflexivity.
  - reflexivity.
Defined.

Lemma length_nonneg {A} (l : list A) : 0 <= length l.
Proof. unfold length. lia. Qed.

Lemma splice_insert {A} (start : Z) (items arr : list A) :
  0 <= start <= length arr ->
  splice start 0 items arr
  = firstn (Z.to_nat start) arr ++ items ++ skipn (Z.to_nat start) arr.
Proof.
  intros H. unfold splice.
  destruct (Z.ltb_spec start 0); [lia|].
  rewrite (Z.min_l start) by lia.
  rewrite Z.max_id, (Z.min_l 0) by lia.
  now rewrite Z.add_0_r.
Qed.

(** C4, as stated, fails: an insert at line 10 of a document of three
    lines is refused, and the document is left as it is; it is not
    appended. *)
Lemma insert_far_beyond_end_rejected :
  invalid (insert_at 10 (str "X")) (doc ["a"; "b"; "c"]) = true
  /\ apply (doc ["a"; "b"; "c"]) [insert_at 10 (str "X")]
     = doc ["a"; "b"; "c"]
  /\ apply (doc ["a"; "b"; "c"]) [insert_at 10 (str "X")]
     <> inserted (length (doc ["a"; "b"; "c"])) (insert_at 10 (str "X"))
                 (doc ["a"; "b"; "c"]).
Proof. repeat split. vm_compute. discriminate. Qed.

(** C4, amended. An insert with a line of 1 or more and a content that is
    not empty is made whenever its index is at most one past the number of
    lines: at its index, or at the end of the document when the index is
    beyond it.  An insert further away is refused and changes nothing. *)
Theorem insert_within_reach (lines : list jsstring) (edit : TextEditOperation) :
  type edit = Insert ->
  1 <= line edit ->
  truthy (content edit) = true ->
  let index := line edit - 1 in
  (index <= length lines + 1 ->
   (forall i editsCopy,
       nth_error editsCopy i = Some edit ->
       fst (body i (lines, editsCopy))
       = inserted (Z.min index (length lines)) edit lines)
   /\ apply lines [edit] = inserted (Z.min index (length lines)) edit lines)
  /\ (length lines + 1 < index ->
      (forall i editsCopy,
          nth_error editsCopy i = Some edit ->
          body i (lines, editsCopy) = (lines, editsCopy))
      /\ apply lines [edit] = lines).
Proof.
  intros Hty Hline Hc index.
  pose proof (length_nonneg lines) as Hlen.
  split; intros Hidx.
  - assert (Hinv : invalid edit lines = false).
    { unfold invalid. rewrite Hty. fold index.
      destruct (Z.ltb_spec index 0); [lia|].
      rewrite Z.gtb_ltb.
      destruct (Z.ltb_spec (length lines + 1) index); [lia | reflexivity]. }
    assert (Hm : fst (mutate edit lines)
                 = inserted (Z.min index (length lines)) edit lines).
    { unfold mutate. rewrite Hty, Hc. fold index. simpl fst.
      rewrite Z.gtb_ltb.
      destruct (Z.ltb_spec (length lines) index).
      - rewrite Z.min_r by lia. apply splice_insert. lia.
      - rewrite Z.min_l by lia. apply splice_insert. lia. }
    split.
    + intros i editsCopy Hi. now rewrite (fst_body _ _ _ _ Hi), Hinv.
    + now rewrite apply_single, Hinv.
  - assert (Hinv : invalid edit lines = true).
    { unfold invalid. rewrite Hty. fold index.
      rewrite Z.gtb_ltb.
      destruct (Z.ltb_spec (length lines + 1) index); [|lia].
      apply orb_true_r. }
    split.
    + intros i editsCopy Hi. unfold body. now rewrite Hi, Hinv.
    + now rewrite apply_single, Hinv.
Qed.

Lemma insert_within_reach_witness :
  apply (doc ["a"; "b"; "c"]) [insert_at 5 (str "X")]
  = doc ["a"; "b"; "c"; "X"].
Proof.
  apply (insert_within_reach (doc ["a"; "b"; "c"]) (insert_at 5 (str "X")));
    [reflexivity | simpl; lia | reflexivity | vm_compute; discriminate].
Defined.

(** *** The propagation of a shift to the later edits *)

(** After a turn that changed the number of lines, each later edit has
    been through [adjust]; the edits up to the current one are as before. *)
Lemma body_edits (lines lines' : list jsstring)
      (editsCopy : list TextEditOperation) (i : nat)
      (edit : TextEditOperation) (change : Z) :
  nth_error editsCopy i = Some edit ->
  invalid edit lines = false ->
  mutate edit lines = (lines', change) ->
  change <> 0 ->
  forall j,
    nth_error (snd (body i (lines, editsCopy))) j
    = if Nat.ltb i j
      then option_map (adjust edit change (length lines'))
                      (nth_error editsCopy j)
      else nth_error editsCopy j.
Proof.
  intros Hi Hinv Hm Hch j. unfold body. rewrite Hi, Hinv, Hm.
  destruct (Z.eqb_spec change 0); [contradiction|]. cbn [snd].
  assert (Hlen : (i < List.length editsCopy)%nat)
    by (apply nth_error_Some; congruence).
  assert (Hfl : List.length (firstn (S i) editsCopy) = S i)
    by (rewrite length_firstn; lia).
  destruct (Nat.ltb_spec i j).
  - rewrite nth_error_app2 by lia. rewrite Hfl, nth_error_map.
    rewrite nth_error_skipn. f_equal. f_equal. lia.
  - rewrite nth_error_app1 by lia. rewrite nth_error_firstn.
    destruct (Nat.ltb_spec j (S i)); [reflexivity | lia].
Qed.

(** An edit at or below the threshold is left alone; one above it gets
    the shift, then the floor of 1 and, for a replace or a delete, the
    ceiling of the number of lines. *)
Lemma adjust_at_or_below (edit d : TextEditOperation) (change len : Z) :
  line d <= adjustmentThreshold edit -> adjust edit change len d = d.
Proof.
  intros H. unfold adjust. rewrite Z.gtb_ltb.
  destruct (Z.ltb_spec (adjustmentThreshold edit) (line d)); [lia|reflexivity].
Qed.

Lemma adjust_above (edit d : TextEditOperation) (change len : Z) :
  adjustmentThreshold edit < line d ->
  line (adjust edit change len d)
  = if line d + change <=? 0 then 1
    else match type d with
         | Insert => line d + change
         | Replace | Delete =>
             if line d + change >? len then Z.max 1 len else line d + change
         end.
Proof.
  intros H. unfold adjust. rewrite (Z.gtb_ltb (line d)).
  destruct (Z.ltb_spec (adjustmentThreshold edit) (line d)); [|lia].
  destruct (line d + change <=? 0); [reflexivity|].
  destruct (type d); simpl; try reflexivity;
    destruct (line d + change >? len); reflexivity.
Qed.

(** The threshold of the code is the last line touched as long as the
    count of the edit fits in the document. *)
Lemma threshold_when_count_fits (edit : TextEditOperation)
      (lines : list jsstring) :
  type edit = Replace \/ type edit = Delete ->
  count_or_1 (count edit) <= length lines - (line edit - 1) ->
  adjustmentThreshold edit = last_line_touched edit lines.
Proof.
  intros Hty Hfit. unfold adjustmentThreshold, last_line_touched, effective_count.
  rewrite Z.min_l by exact Hfit. destruct Hty as [-> | ->]; reflexivity.
Qed.

(** C2, on the code. The delete of 5 lines at line 2 of a document of
    three lines touches two lines, so that its shift is -2 and the last line
    it touches is line 3; the later insert at line 4 lies above that line,
    but the code compares it with line 2 + 5 - 1 = 6 and leaves it at line 4,
    where it is then refused: the result is the single line "a". *)
Theorem shift_threshold_ignores_clamp :
  let lines := doc ["a"; "b"; "c"] in
  let edit := delete_at 2 5 in
  let later := insert_at 4 (str "X") in
  snd (mutate edit lines) = -2
  /\ last_line_touched edit lines = 3
  /\ adjustmentThreshold edit = 6
  /\ body 0 (lines, [edit; later]) = (doc ["a"], [edit; later])
  /\ apply lines [edit; later] = doc ["a"].
Proof. repeat split. Qed.

(** Where the count fits, the later edits above the last line touched,
    and only they, are moved. *)
Lemma shift_propagation_when_count_fits (lines lines' : list jsstring)
      (editsCopy : list TextEditOperation) (i : nat)
      (edit : TextEditOperation) (change : Z) :
  nth_error editsCopy i = Some edit ->
  type edit = Replace \/ type edit = Delete ->
  invalid edit lines = false ->
  mutate edit lines = (lines', change) ->
  change <> 0 ->
  count_or_1 (count edit) <= length lines - (line edit - 1) ->
  forall j d,
    (i < j)%nat ->
    nth_error editsCopy j = Some d ->
    nth_error (snd (body i (lines, editsCopy))) j
    = Some (adjust edit change (length lines') d)
    /\ (line d <= last_line_touched edit lines ->
        adjust edit change (length lines') d = d)
    /\ (last_line_touched edit lines < line d ->
        line (adjust edit change (length lines') d)
        = if line d + change <=? 0 then 1
          else match type d with
               | Insert => line d + change
               | Replace | Delete =>
                   if line d + change >? length lines'
                   then Z.max 1 (length lines') else line d + change
               end).
Proof.
  intros Hi Hty Hinv Hm Hch Hfit j d Hij Hj.
  rewrite <- (threshold_when_count_fits edit lines Hty Hfit).
  repeat split.
  - rewrite (body_edits _ _ _ _ _ _ Hi Hinv Hm Hch), Hj.
    destruct (Nat.ltb_spec i j); [reflexivity | lia].
  - apply adjust_at_or_below.
  - apply adjust_above.
Qed.

End Applier.

(* ================================================================== *)
(** ** The directive batch extractor *)
(* ================================================================== *)

Section Scan.
Import Js Regex.
Context {C : Type} (re : regex C).

Lemma scan_from (skip pos : nat) (s : jsstring) (m : nat * C) :
  In m (scan re skip pos s) -> (pos <= fst m)%nat.
Proof.
  revert skip pos. induction s as [|x t IH]; intros skip pos; simpl.
  - intros [].
  - destruct skip as [|k].
    + destruct (re (x :: t)) as [[c rest]|].
      * intros [<- | Hin]; [simpl; lia|]. apply IH in Hin. lia.
      * intros Hin. apply IH in Hin. lia.
    + intros Hin. apply IH in Hin. lia.
Qed.

(** The matches come in the order of the text. *)
Lemma scan_sorted (skip pos : nat) (s : jsstring) :
  StronglySorted lt (map fst (scan re skip pos s)).
Proof.
  revert skip pos. induction s as [|x t IH]; intros skip pos; simpl.
  - constructor.
  - destruct skip as [|k]; [|apply IH].
    destruct (re (x :: t)) as [[c rest]|]; [|apply IH].
    simpl. constructor; [apply IH|].
    apply Forall_forall. intros p Hp. apply in_map_iff in Hp.
    destruct Hp as [m [<- Hin]]. apply scan_from in Hin. lia.
Qed.

(** Each match is a match of the pattern at its index. *)
Lemma scan_sound (skip pos : nat) (s : jsstring) (p : nat) (c : C) :
  In (p, c) (scan re skip pos s) ->
  exists rest, re (skipn (p - pos) s) = Some (c, rest).
Proof.
  revert skip pos. induction s as [|x t IH]; intros skip pos; simpl scan.
  - intros [].
  - assert (Hstep : forall k, In (p, c) (scan re k (S pos) t) ->
                      exists rest, re (skipn (p - pos) (x :: t)) = Some (c, rest)).
    { intros k Hin. pose proof (scan_from _ _ _ _ Hin) as Hle. simpl in Hle.
      destruct (IH _ _ Hin) as [rest Hrest]. exists rest.
      replace (p - pos)%nat with (S (p - S pos)) by lia. exact Hrest. }
    destruct skip as [|k]; [|apply Hstep].
    destruct (re (x :: t)) as [[c' rest]|] eqn:Hre; [|apply Hstep].
    cbn [In]. intros [Heq | Hin]; [|now apply Hstep in Hin].
    inversion Heq; subst. exists rest. now rewrite Nat.sub_diag.
Qed.

Lemma scan_nil_iff (pos : nat) (s : jsstring) :
  re [] = None ->
  scan re 0 pos s = [] <-> forall p, re (skipn p s) = None.
Proof.
  intros Hnil. revert pos.
  induction s as [|x t IH]; intros pos; cbn [scan].
  - split; [|reflexivity]. intros _ p. now rewrite skipn_nil.
  - destruct (re (x :: t)) as [[c rest]|] eqn:Hre.
    + split; [discriminate|]. intros H. specialize (H 0%nat).
      simpl in H. congruence.
    + rewrite IH. split.
      * intros H [|p]; [exact Hre | apply H].
      * intros H p. apply (H (S p)).
Qed.

(** A pattern that needs at least one code unit is found by [test] exactly
    when it matches somewhere. *)
Lemma test_false_iff (s : jsstring) :
  re [] = None ->
  test re s = false <-> forall p, re (skipn p s) = None.
Proof.
  intros Hnil. rewrite <- (scan_nil_iff 0 s Hnil). unfold test, matchAll.
  destruct (scan re 0 0 s); split; congruence.
Qed.

End Scan.

Section Extractor.
Import Js Regex Markup.

Lemma sorted_filter {A} (f : A -> nat) (keep : A -> bool) (l : list A) :
  StronglySorted lt (map f l) -> StronglySorted lt (map f (filter keep l)).
Proof.
  induction l as [|a l IH]; simpl; intros H; [constructor|].
  apply StronglySorted_inv in H. destruct H as [Hs Hall].
  destruct (keep a); simpl; [|now apply IH].
  constructor; [now apply IH|].
  rewrite Forall_forall in *. intros n Hn. apply Hall.
  apply in_map_iff in Hn. destruct Hn as [b [<- Hb]].
  apply filter_In in Hb. apply in_map. tauto.
Qed.

Lemma located_in_text_order {C} (re : regex C)
      (of_match : C -> TextEditOperation) (keep : TextEditOperation -> bool)
      (t : jsstring) :
  in_text_order (located re of_match keep t).
Proof.
  unfold in_text_order, located. apply sorted_filter.
  rewrite map_map. simpl. apply scan_sorted.
Qed.

Lemma located_inv {C} (re : regex C)
      (of_match : C -> TextEditOperation) (keep : TextEditOperation -> bool)
      (t : jsstring) (m : nat * TextEditOperation) :
  In m (located re of_match keep t) ->
  keep (snd m) = true /\ matched_at re of_match t m.
Proof.
  unfold located. intros Hin. apply filter_In in Hin. destruct Hin as [Hin Hk].
  split; [exact Hk|]. apply in_map_iff in Hin.
  destruct Hin as [[p c] [<- Hin]]. simpl.
  destruct (scan_sound re _ _ _ _ _ Hin) as [rest Hrest].
  rewrite Nat.sub_0_r in Hrest. exists c, rest. now split.
Qed.

Lemma located_Forall {C} (re : regex C)
      (of_match : C -> TextEditOperation) (keep : TextEditOperation -> bool)
      (t : jsstring) (P : nat * TextEditOperation -> Prop) :
  (forall m, keep (snd m) = true -> matched_at re of_match t m -> P m) ->
  Forall P (located re of_match keep t).
Proof.
  intros H. apply Forall_forall. intros m Hin.
  apply located_inv in Hin. now apply H.
Qed.

(** The list of [parseTextEditMarkup] in terms of the three located
    lists. *)
Lemma parseTextEditMarkup_eq (message : jsstring) :
  parseTextEditMarkup message
  = map snd (allInsertions (trim message))
      ++ map snd (allReplacements (trim message))
      ++ map snd (allDeletions (trim message)).
Proof.
  destruct message; [reflexivity|].
  unfold parseTextEditMarkup. now rewrite !map_app.
Qed.

(** Every edit of the result has a line of 1 or more. *)
Lemma extracted_line_positive (message : jsstring) :
  Forall (fun edit => 0 < line edit) (parseTextEditMarkup message).
Proof.
  rewrite parseTextEditMarkup_eq, !Forall_app.
  repeat split; apply Forall_forall; intros e He;
    apply in_map_iff in He; destruct He as [m [<- Hm]];
    apply located_inv in Hm; destruct Hm as [Hk _];
    unfold keep_insertion, keep_counted in Hk;
    try (apply andb_prop in Hk; destruct Hk as [Hk _]);
    rewrite Z.gtb_ltb in Hk; now apply Z.ltb_lt.
Qed.

(** The test of the count never refuses a count that [parseInt] can give:
    a count of 0 reads as 1. *)
Lemma keep_counted_ignores_count (edit : TextEditOperation) (n : Z) :
  count edit = Some n -> 0 <= n ->
  keep_counted edit = keep_insertion edit.
Proof.
  intros Hc Hn. unfold keep_counted, keep_insertion. rewrite Hc. simpl.
  destruct (Z.eqb_spec n 0); [apply andb_true_r|].
  rewrite (Z.gtb_ltb n). destruct (Z.ltb_spec 0 n); [apply andb_true_r|lia].
Qed.

(** C5, on the code. A replace and a delete written with a count of 0 are
    both kept, with that count of 0. *)
Theorem zero_count_is_extracted :
  parseTextEditMarkup
    (str "<textedit:replace line=" ++ quoted "1" ++ str " count="
       ++ quoted "0" ++ str ">x</textedit:replace>")
  = [replace_at 1 0 (str "x")]
  /\ parseTextEditMarkup
       (str "<textedit:delete line=" ++ quoted "3" ++ str " count="
          ++ quoted "0" ++ str "/>")
     = [delete_at 3 0].
Proof. split; vm_compute; reflexivity. Qed.

(** C6, as stated, fails: the replace is matched at index 0 and the insert
    at index 47, yet the insert comes first in the result. *)
Lemma insert_listed_before_earlier_replace :
  allReplacements (trim replace_then_insert) = [(0%nat, replace_at 1 1 (str "a"))]
  /\ allInsertions (trim replace_then_insert) = [(47%nat, insert_at 2 (str "b"))]
  /\ parseTextEditMarkup replace_then_insert
     = [insert_at 2 (str "b"); replace_at 1 1 (str "a")].
Proof. repeat split; vm_compute; reflexivity. Qed.

(** C6, amended. The result lists the inserts, then the replaces, then the
    deletes; within each of the three kinds the edits are in the order of
    their matches in the trimmed text, each being the match of its pattern
    at its index. *)
Theorem extraction_order_by_kind (message : jsstring) :
  let t := trim message in
  parseTextEditMarkup message
  = map snd (allInsertions t) ++ map snd (allReplacements t)
      ++ map snd (allDeletions t)
  /\ (Forall (fun m => type (snd m) = Insert
                       /\ matched_at insertRegex insertion_of t m)
             (allInsertions t)
      /\ Forall (fun m => type (snd m) = Replace
                          /\ matched_at replaceRegex replacement_of t m)
                (allReplacements t)
      /\ Forall (fun m => type (snd m) = Delete
                          /\ matched_at deleteRegex deletion_of t m)
                (allDeletions t))
  /\ (in_text_order (allInsertions t)
      /\ in_text_order (allReplacements t)
      /\ in_text_order (allDeletions t)).
Proof.
  intros t. split; [apply parseTextEditMarkup_eq|].
  split; [|repeat split; apply located_in_text_order].
  repeat split; apply located_Forall; intros m _ Hm; (split; [|exact Hm]);
    destruct Hm as [c [rest [_ ->]]].
  - now destruct c.
  - now destruct c as [[? ?] ?].
  - now destruct c.
Qed.

End Extractor.

(* ================================================================== *)
(** ** The completeness oracle *)
(* ================================================================== *)

Section Oracle.
Import Js Regex Markup.

(** C3, as stated, fails: an insert closed by the closing marker of a
    replace is out of balance for both kinds and is reported complete; so
    is a closing marker alone, with no opening marker at all. *)
Lemma mismatched_kinds_reported_complete :
  (is_complete insert_closed_as_replace = true
   /\ openings Insert insert_closed_as_replace = 1%nat
   /\ closings Insert insert_closed_as_replace = 0%nat
   /\ balanced_per_kind insert_closed_as_replace = false)
  /\ (is_complete (str "</textedit:insert>") = true
      /\ openings Insert (str "</textedit:insert>") = 0%nat
      /\ closings Insert (str "</textedit:insert>") = 1%nat
      /\ balanced_per_kind (str "</textedit:insert>") = false).
Proof. repeat split; vm_compute; reflexivity. Qed.

(** C3, amended. A text is reported complete exactly when no opening
    marker of any kind occurs in it, in whatever letter case, or the number
    of opening markers, all kinds together, is the number of closing
    markers, all kinds together, a self-closed delete counting as one. *)
Theorem is_complete_iff_totals (text : jsstring) :
  is_complete text = true
  <-> (forall p, openTagRegex lit_i (skipn p text) = None)
      \/ count_matches (openTagRegex lit) text
         = count_matches closeTagRegex text.
Proof.
  unfold is_complete, hasIncompleteXmlTags.
  rewrite negb_true_iff, andb_false_iff, negb_false_iff, Nat.eqb_eq.
  now rewrite test_false_iff by reflexivity.
Qed.

(** An opening marker in flight, then closed. *)
Lemma completeness_detection :
  is_complete (str "<textedit:insert line=" ++ quoted "1" ++ str ">x") = false
  /\ is_complete (str "<textedit:insert line=" ++ quoted "1"
                    ++ str ">x</textedit:insert>") = true.
Proof. split; vm_compute; reflexivity. Qed.

End Oracle.

(* ================================================================== *)
(** ** The test of the source on line number adjustments *)
(* ================================================================== *)

Section SourceTest.
Import Js Regex Markup Patch.

(** [testLineNumberAdjustments]: the message is parsed, the edits are
    applied to five lines, and the result is the expected content. *)
Lemma testLineNumberAdjustments_passes :
  let originalContent :=
    join (doc ["Line 1"; "Line 2"; "Line 3"; "Line 4"; "Line 5"]) in
  let testMessage :=
    str "<textedit:insert line=" ++ quoted "2"
      ++ str ">New Line A" ++ LF :: str "New Line B</textedit:insert>"
      ++ LF :: str "<textedit:replace line=" ++ quoted "4"
      ++ str " count=" ++ quoted "1"
      ++ str ">This Line Was Replaced</textedit:replace>" in
  let expectedContent :=
    join (doc ["Line 1"; "New Line A"; "New Line B"; "Line 2"; "Line 3";
               "This Line Was Replaced"; "Line 5"]) in
  parseTextEditMarkup testMessage
  = [insert_at 2 (str "New Line A" ++ LF :: str "New Line B");
     replace_at 4 1 (str "This Line Was Replaced")]
  /\ applyTextEditChanges originalContent (parseTextEditMarkup testMessage)
     = expectedContent.
Proof. split; vm_compute; reflexivity. Qed.

End SourceTest.

(* ================================================================== *)
(** ** More on the patch applier *)
(* ================================================================== *)

Section ApplierMore.
Import Js Patch.

Lemma splice_in_range {A} (start deleteCount : Z) (items arr : list A) :
  0 <= start <= length arr ->
  0 <= deleteCount ->
  splice start deleteCount items arr
  = firstn (Z.to_nat start) arr ++ items
      ++ skipn (Z.to_nat (start + deleteCount)) arr.
Proof.
  intros Hs Hd. unfold splice.
  destruct (Z.ltb_spec start 0); [lia|].
  rewrite (Z.min_l start) by lia. rewrite (Z.max_l deleteCount) by lia.
  destruct (Z.le_gt_cases deleteCount (length arr - start)).
  - now rewrite Z.min_l by lia.
  - rewrite Z.min_r by lia.
    replace (start + (length arr - start)) with (length arr) by lia.
    unfold length in *. rewrite !skipn_all2; [reflexivity | lia | lia].
Qed.

Lemma length_splice {A} (start deleteCount : Z) (items arr : list A) :
  0 <= start <= length arr ->
  0 <= deleteCount <= length arr - start ->
  length (splice start deleteCount items arr)
  = length arr + length items - deleteCount.
Proof.
  intros Hs Hd. rewrite splice_in_range by lia. unfold length in *.
  rewrite !length_app, length_firstn, length_skipn. lia.
Qed.

(** The lines of a replace or a delete that is not refused: the lines
    before the index, the new lines, and the lines from [count] further on
    (none, when the count runs past the end of the document). *)
Lemma mutate_replace_delete (lines : list jsstring) (edit : TextEditOperation) :
  type edit = Replace \/ type edit = Delete ->
  invalid edit lines = false ->
  1 <= count_or_1 (count edit) ->
  mutate edit lines
  = match type edit with
    | Replace =>
        if truthy (content edit) then
          (firstn (Z.to_nat (line edit - 1)) lines
             ++ split (text_of (content edit))
             ++ skipn (Z.to_nat (line edit - 1 + count_or_1 (count edit))) lines,
           length (split (text_of (content edit)))
           - Z.min (count_or_1 (count edit)) (length lines - (line edit - 1)))
        else (lines, 0)
    | _ =>
        (firstn (Z.to_nat (line edit - 1)) lines
           ++ skipn (Z.to_nat (line edit - 1 + count_or_1 (count edit))) lines,
         - Z.min (count_or_1 (count edit)) (length lines - (line edit - 1)))
    end.
Proof.
  intros Hty Hinv Hc. unfold invalid in Hinv. unfold mutate.
  set (index := line edit - 1) in *. set (c := count_or_1 (count edit)) in *.
  assert (Hidx : 0 <= index < length lines).
  { destruct Hty as [Hty|Hty]; rewrite Hty in Hinv;
      apply orb_false_elim in Hinv; destruct Hinv as [H1 H2];
      rewrite Z.geb_leb in H2;
      apply Z.ltb_ge in H1; apply Z.leb_gt in H2; lia. }
  assert (Hskip : skipn (Z.to_nat (index + Z.min c (length lines - index))) lines
                  = skipn (Z.to_nat (index + c)) lines).
  { destruct (Z.le_gt_cases c (length lines - index)).
    - now rewrite Z.min_l by lia.
    - rewrite Z.min_r by lia. unfold length in *.
      rewrite !skipn_all2; [reflexivity | lia | lia]. }
  destruct Hty as [Hty|Hty]; rewrite Hty.
  - destruct (truthy (content edit)); [|reflexivity].
    rewrite Z.geb_leb. destruct (Z.leb_spec (length lines) index); [lia|].
    rewrite splice_in_range by lia. now rewrite Hskip.
  - rewrite splice_in_range by lia. now rewrite Hskip.
Qed.

Lemma invalid_false_range (lines : list jsstring) (edit : TextEditOperation) :
  invalid edit lines = false ->
  0 <= line edit - 1
  /\ match type edit with
     | Insert => line edit - 1 <= length lines + 1
     | Replace | Delete => line edit - 1 < length lines
     end.
Proof.
  unfold invalid. intros H.
  destruct (type edit); apply orb_false_elim in H; destruct H as [H1 H2];
    apply Z.ltb_ge in H1;
    rewrite ?Z.gtb_ltb, ?Z.geb_leb in H2;
    try apply Z.ltb_ge in H2; try apply Z.leb_gt in H2; lia.
Qed.

Lemma valid_replace_delete (lines : list jsstring) (edit : TextEditOperation) :
  type edit = Replace \/ type edit = Delete ->
  1 <= line edit <= length lines ->
  invalid edit lines = false.
Proof.
  intros Hty Hl. unfold invalid. rewrite Z.geb_leb.
  destruct (Z.ltb_spec (line edit - 1) 0); [lia|].
  destruct (Z.leb_spec (length lines) (line edit - 1)); [lia|].
  destruct Hty as [-> | ->]; reflexivity.
Qed.

(** X1. A delete at a line of the document, with a count that is absent or
    not negative, removes the lines from that line on, [count] of them (one
    when the count is absent or 0), or all that are left when there are
    fewer: in a turn of the loop and as a batch of its own. *)
Theorem delete_removes_lines (lines : list jsstring) (edit : TextEditOperation) :
  type edit = Delete ->
  1 <= line edit <= length lines ->
  1 <= count_or_1 (count edit) ->
  let kept :=
    firstn (Z.to_nat (line edit - 1)) lines
      ++ skipn (Z.to_nat (line edit - 1 + count_or_1 (count edit))) lines in
  (forall i editsCopy,
      nth_error editsCopy i = Some edit ->
      fst (body i (lines, editsCopy)) = kept)
  /\ apply lines [edit] = kept
  /\ length kept
     = length lines
       - Z.min (count_or_1 (count edit)) (length lines - (line edit - 1)).
Proof.
  intros Hty Hl Hc kept.
  assert (Hinv : invalid edit lines = false)
    by (apply valid_replace_delete; auto).
  pose proof (mutate_replace_delete lines edit (or_intror Hty) Hinv Hc) as Hm.
  rewrite Hty in Hm. fold kept in Hm.
  repeat split.
  - intros i editsCopy Hi. now rewrite (fst_body _ _ _ _ Hi), Hinv, Hm.
  - now rewrite apply_single, Hinv, Hm.
  - subst kept. unfold length in *.
    rewrite length_app, length_firstn, length_skipn. lia.
Qed.

Lemma delete_removes_lines_witness :
  apply (doc ["a"; "b"; "c"; "d"]) [delete_at 2 2] = doc ["a"; "d"].
Proof.
  apply (delete_removes_lines (doc ["a"; "b"; "c"; "d"]) (delete_at 2 2));
    [reflexivity | vm_compute; split; discriminate | simpl; lia].
Defined.

(** X2. A replace at a line of the document, with a content that is not
    empty and a count that is absent or not negative, puts the lines of the
    content in the place of [count] lines from that line on (of all that are
    left when there are fewer), and keeps every other line. *)
Theorem replace_swaps_lines (lines : list jsstring) (edit : TextEditOperation) :
  type edit = Replace ->
  1 <= line edit <= length lines ->
  1 <= count_or_1 (count edit) ->
  truthy (content edit) = true ->
  let swapped :=
    firstn (Z.to_nat (line edit - 1)) lines
      ++ split (text_of (content edit))
      ++ skipn (Z.to_nat (line edit - 1 + count_or_1 (count edit))) lines in
  (forall i editsCopy,
      nth_error editsCopy i = Some edit ->
      fst (body i (lines, editsCopy)) = swapped)
  /\ apply lines [edit] = swapped.
Proof.
  intros Hty Hl Hc Ht swapped.
  assert (Hinv : invalid edit lines = false)
    by (apply valid_replace_delete; auto).
  pose proof (mutate_replace_delete lines edit (or_introl Hty) Hinv Hc) as Hm.
  rewrite Hty, Ht in Hm. fold swapped in Hm.
  split.
  - intros i editsCopy Hi. now rewrite (fst_body _ _ _ _ Hi), Hinv, Hm.
  - now rewrite apply_single, Hinv, Hm.
Qed.

Lemma replace_swaps_lines_witness :
  apply (doc ["a"; "b"; "c"; "d"])
        [replace_at 2 2 (str "X" ++ LF :: str "Y" ++ LF :: str "Z")]
  = doc ["a"; "X"; "Y"; "Z"; "d"].
Proof.
  apply (replace_swaps_lines
           (doc ["a"; "b"; "c"; "d"])
           (replace_at 2 2 (str "X" ++ LF :: str "Y" ++ LF :: str "Z")));
    [reflexivity | vm_compute; split; discriminate | simpl; lia | reflexivity].
Defined.

Lemma length_mutate_insert (lines : list jsstring) (edit : TextEditOperation) :
  invalid edit lines = false ->
  type edit = Insert ->
  length (fst (mutate edit lines)) = length lines + snd (mutate edit lines).
Proof.
  intros Hinv Hty.
  pose proof (invalid_false_range lines edit Hinv) as [H0 Hr].
  pose proof (length_nonneg lines) as Hlen. rewrite Hty in Hr.
  unfold mutate. rewrite Hty.
  destruct (truthy (content edit)); [|simpl; lia]. cbn [fst snd].
  rewrite Z.gtb_ltb.
  destruct (Z.ltb_spec (length lines) (line edit - 1));
    rewrite length_splice; lia.
Qed.

(** X3. For an edit that is not refused, and whose count, if it is a
    replace or a delete, is absent or not negative, [lineCountChange] is the
    change of the number of lines: the lines after the edit number those
    before it plus [lineCountChange]. *)
Theorem lineCountChange_is_length_change (lines : list jsstring)
        (edit : TextEditOperation) :
  invalid edit lines = false ->
  type edit = Insert \/ 1 <= count_or_1 (count edit) ->
  length (fst (mutate edit lines)) = length lines + snd (mutate edit lines).
Proof.
  intros Hinv Hc.
  assert (Hc' : type edit <> Insert -> 1 <= count_or_1 (count edit))
    by (destruct Hc; [congruence | auto]).
  clear Hc. pose proof (invalid_false_range lines edit Hinv) as [H0 Hr].
  pose proof (length_nonneg lines) as Hlen.
  destruct (type edit) eqn:Hty.
  - unfold mutate. rewrite Hty.
    destruct (truthy (content edit)); [|simpl; lia]. cbn [fst snd].
    rewrite Z.gtb_ltb.
    destruct (Z.ltb_spec (length lines) (line edit - 1));
      rewrite length_splice; lia.
  - assert (Hc : 1 <= count_or_1 (count edit)) by (apply Hc'; congruence).
    rewrite (mutate_replace_delete lines edit (or_introl Hty) Hinv Hc), Hty.
    destruct (truthy (content edit)); [|simpl; lia]. cbn [fst snd].
    unfold length in *.
    rewrite !length_app, length_firstn, length_skipn. lia.
  - assert (Hc : 1 <= count_or_1 (count edit)) by (apply Hc'; congruence).
    rewrite (mutate_replace_delete lines edit (or_intror Hty) Hinv Hc), Hty.
    cbn [fst snd]. unfold length in *.
    rewrite !length_app, length_firstn, length_skipn. lia.
Qed.

Lemma lineCountChange_is_length_change_witness :
  length (fst (mutate (replace_at 2 5 (str "X")) (doc ["a"; "b"; "c"])))
  = length (doc ["a"; "b"; "c"])
    + snd (mutate (replace_at 2 5 (str "X")) (doc ["a"; "b"; "c"])).
Proof.
  apply (lineCountChange_is_length_change
           (doc ["a"; "b"; "c"]) (replace_at 2 5 (str "X")));
    [reflexivity | right; simpl; lia].
Defined.




Lemma length_split_pos (s : jsstring) : 1 <= length (split s).
Proof.
  pose proof (split_not_nil s). unfold length.
  destruct (split s); [congruence | simpl; lia].
Qed.

(** X5. An insert that is made moves the later edits above its line, and
    only them: a later insert goes down by the number of lines of the
    content; a later replace or delete goes down by as much, but not
    beyond the last line of the document as it then is. *)
Theorem insert_moves_later_edits (lines : list jsstring)
        (editsCopy : list TextEditOperation) (i : nat)
        (edit : TextEditOperation) :
  nth_error editsCopy i = Some edit ->
  type edit = Insert ->
  invalid edit lines = false ->
  truthy (content edit) = true ->
  let n := length (split (text_of (content edit))) in
  forall j d,
    (i < j)%nat ->
    nth_error editsCopy j = Some d ->
    nth_error (snd (body i (lines, editsCopy))) j
    = Some (if line d <=? line edit then d
            else match type d with
                 | Insert => set_line d (line d + n)
                 | Replace | Delete =>
                     set_line d (Z.min (line d + n) (length lines + n))
                 end).
Proof.
  intros Hi Hty Hinv Ht n j d Hij Hj.
  pose proof (invalid_false_range lines edit Hinv) as [H0 _].
  pose proof (length_split_pos (text_of (content edit))) as Hn. fold n in Hn.
  pose proof (length_nonneg lines) as Hlen.
  destruct (mutate edit lines) as [lines' change] eqn:Hm.
  assert (Hch : change = n).
  { unfold mutate in Hm. rewrite Hty, Ht in Hm. now inversion Hm. }
  assert (Hlen' : length lines' = length lines + n).
  { pose proof (length_mutate_insert lines edit Hinv Hty) as H.
    rewrite Hm in H. cbn [fst snd] in H. now rewrite <- Hch. }
  rewrite (body_edits _ _ _ _ _ _ Hi Hinv Hm) by lia. rewrite Hj.
  destruct (Nat.ltb_spec i j); [|lia]. cbn [option_map]. f_equal.
  unfold adjust, adjustmentThreshold. rewrite Hty, Hch, Hlen', Z.gtb_ltb.
  destruct (Z.leb_spec (line d) (line edit)), (Z.ltb_spec (line edit) (line d));
    try lia; [reflexivity|].
  destruct (Z.leb_spec (line d + n) 0); [lia|].
  rewrite Z.gtb_ltb.
  destruct (type d); cbn [EditType_eqb negb andb]; [reflexivity| |];
    destruct (Z.ltb_spec (length lines + n) (line d + n));
    rewrite ?Z.min_r, ?Z.min_l by lia; try reflexivity;
    now rewrite Z.max_r by lia.
Qed.

Lemma insert_moves_later_edits_witness :
  nth_error
    (snd (body 0 (doc ["a"; "b"; "c"],
                  [insert_at 1 (str "X"); delete_at 2 1]))) 1
  = Some (delete_at 3 1).
Proof.
  apply (insert_moves_later_edits
           (doc ["a"; "b"; "c"]) [insert_at 1 (str "X"); delete_at 2 1]
           0 (insert_at 1 (str "X")) eq_refl eq_refl eq_refl eq_refl
           1%nat (delete_at 2 1)); [lia | reflexivity].
Defined.

Lemma sort_In (d : TextEditOperation) (l : list TextEditOperation) :
  In d (sort l) -> In d l.
Proof.
  induction l as [|e t IH]; simpl; [auto|].
  intros H. apply insert_by_line_In in H. destruct H as [-> | H]; auto.
Qed.

Lemma loop_all_refused (lines : list jsstring)
      (editsCopy : list TextEditOperation) (turns : list nat) :
  Forall (fun edit => invalid edit lines = true) editsCopy ->
  fold_left (fun st i => body i st) turns (lines, editsCopy)
  = (lines, editsCopy).
Proof.
  intros Hall. induction turns as [|i turns IH]; [reflexivity|].
  cbn [fold_left]. replace (body i (lines, editsCopy)) with (lines, editsCopy);
    [exact IH|].
  unfold body. destruct (nth_error editsCopy i) as [edit|] eqn:Hi;
    [|reflexivity].
  rewrite Forall_forall in Hall.
  now rewrite (Hall edit (nth_error_In _ _ Hi)).
Qed.

(** X6. A batch whose every edit is refused on the document as it is, in
    whatever number and order, gives the document back: the lines on the
    line array, the very content on the text. *)
Theorem refused_batch_leaves_document (lines : list jsstring)
        (edits : list TextEditOperation) :
  Forall (fun edit => invalid edit lines = true) edits ->
  apply lines edits = lines
  /\ (forall content,
         split content = lines ->
         applyTextEditChanges content edits = content).
Proof.
  intros Hall.
  assert (Happly : apply lines edits = lines).
  { unfold apply, run. rewrite loop_all_refused; [reflexivity|].
    rewrite Forall_forall in *. intros d Hd. apply Hall. now apply sort_In. }
  split; [exact Happly|]. intros content <-.
  unfold applyTextEditChanges. destruct edits; [reflexivity|].
  now rewrite Happly, join_split.
Qed.

Lemma refused_batch_leaves_document_witness :
  apply (doc ["a"; "b"])
        [replace_at 7 1 (str "X"); insert_at 9 (str "Y"); delete_at 0 1]
  = doc ["a"; "b"].
Proof.
  apply (refused_batch_leaves_document
           (doc ["a"; "b"])
           [replace_at 7 1 (str "X"); insert_at 9 (str "Y"); delete_at 0 1]).
  repeat constructor.
Defined.

Lemma insert_by_line_perm (e : TextEditOperation) (l : list TextEditOperation) :
  Permutation (insert_by_line e l) (e :: l).
Proof.
  induction l as [|x t IH]; simpl; [reflexivity|].
  destruct (line e <=? line x); [reflexivity|].
  rewrite IH. apply perm_swap.
Qed.

Lemma sort_perm (l : list TextEditOperation) : Permutation (sort l) l.
Proof.
  induction l as [|e t IH]; simpl; [constructor|].
  rewrite insert_by_line_perm. now constructor.
Qed.

(** Two sorted lists of the same edits, no two of them at one line, are
    the same list. *)
Lemma sorted_unique (l1 l2 : list TextEditOperation) :
  StronglySorted line_le l1 ->
  StronglySorted line_le l2 ->
  Permutation l1 l2 ->
  NoDup (map line l1) ->
  l1 = l2.
Proof.
  revert l2. induction l1 as [|a t1 IH]; intros l2 Hs1 Hs2 Hp Hnd.
  - now apply Permutation_nil in Hp.
  - destruct l2 as [|b t2];
      [apply Permutation_sym, Permutation_nil in Hp; discriminate|].
    apply StronglySorted_inv in Hs1. destruct Hs1 as [Hs1 Ha].
    apply StronglySorted_inv in Hs2. destruct Hs2 as [Hs2 Hb].
    inversion Hnd as [|? ? Hnotin Hnd']; subst.
    assert (Hab : a = b).
    { assert (Hin1 : In a (b :: t2))
        by (apply (Permutation_in _ Hp); now left).
      assert (Hin2 : In b (a :: t1))
        by (apply (Permutation_in _ (Permutation_sym Hp)); now left).
      destruct Hin1 as [-> | Hin1]; [reflexivity|].
      destruct Hin2 as [-> | Hin2]; [reflexivity|].
      rewrite Forall_forall in Ha, Hb.
      specialize (Ha b Hin2). specialize (Hb a Hin1). unfold line_le in *.
      exfalso. apply Hnotin. replace (line a) with (line b) by lia.
      now apply in_map. }
    subst b. f_equal. apply IH; auto.
    now apply Permutation_cons_inv in Hp.
Qed.

(** X7. The order of the edits in the batch does not matter when no two
    of them are at the same line: two batches of the same edits give the
    same lines and the same text. *)
Theorem batch_order_irrelevant (lines : list jsstring) (content : jsstring)
        (edits edits' : list TextEditOperation) :
  Permutation edits edits' ->
  NoDup (map line edits) ->
  apply lines edits = apply lines edits'
  /\ applyTextEditChanges content edits = applyTextEditChanges content edits'.
Proof.
  intros Hp Hnd.
  assert (Hsort : sort edits = sort edits').
  { apply sorted_unique; try apply sort_sorted.
    - rewrite !sort_perm. exact Hp.
    - apply (Permutation_NoDup (l := map line edits)); [|exact Hnd].
      apply Permutation_map, Permutation_sym, sort_perm. }
  assert (Happly : forall l, apply l edits = apply l edits')
    by (intros l; unfold apply; now rewrite Hsort).
  split; [apply Happly|]. unfold applyTextEditChanges.
  destruct edits as [|e t], edits' as [|e' t']; try reflexivity.
  - apply Permutation_nil in Hp. discriminate.
  - apply Permutation_sym, Permutation_nil in Hp. discriminate.
  - now rewrite Happly.
Qed.

Lemma batch_order_irrelevant_witness :
  apply (doc ["a"; "b"; "c"]) [delete_at 3 1; insert_at 1 (str "X")]
  = apply (doc ["a"; "b"; "c"]) [insert_at 1 (str "X"); delete_at 3 1].
Proof.
  apply (batch_order_irrelevant
           (doc ["a"; "b"; "c"]) []
           [delete_at 3 1; insert_at 1 (str "X")]
           [insert_at 1 (str "X"); delete_at 3 1]).
  - apply perm_swap.
  - repeat constructor; simpl; intuition discriminate.
Defined.

End ApplierMore.

(* ================================================================== *)
(** ** What a match says about the text *)
(* ================================================================== *)

Section RegexFacts.
Import Js Regex.
Context {R : Type}.

Lemma lit_with_inv (l : jsstring) (k : jsstring -> option R)
      (s : jsstring) (r : R) :
  lit l k s = Some r <-> exists s', s = l ++ s' /\ k s' = Some r.
Proof.
  unfold lit. revert s. induction l as [|a l IH]; intros s; simpl.
  - split; [intros H; now exists s | intros [s' [-> H]]; exact H].
  - destruct s as [|c t].
    + split; [discriminate | intros [s' [H _]]; discriminate].
    + destruct (N.eqb_spec a c) as [->|Hac].
      * rewrite IH. split; intros [s' [H1 H2]]; exists s'.
        -- now rewrite H1.
        -- split; [congruence | exact H2].
      * split; [discriminate | intros [s' [H _]]; congruence].
Qed.

Lemma star_inv (p : code_unit -> bool) (k : jsstring -> option R)
      (s b : jsstring) (r : R) :
  star p k s = Some (b, r) ->
  exists s', s = b ++ s' /\ forallb p b = true /\ k s' = Some r.
Proof.
  revert b. induction s as [|c t IH]; intros b; simpl.
  - destruct (k []) eqn:Hk; [|discriminate]. simpl. intros H. inversion H; subst.
    now exists [].
  - assert (Hstop : option_map (pair []) (k (c :: t)) = Some (b, r) ->
                    exists s', c :: t = b ++ s' /\ forallb p b = true
                               /\ k s' = Some r).
    { destruct (k (c :: t)) eqn:Hk; [|discriminate]. simpl. intros H.
      inversion H; subst. now exists (c :: t). }
    destruct (p c) eqn:Hp; [|exact Hstop].
    destruct (star p k t) as [[b' r']|] eqn:Hs; [|exact Hstop].
    intros H. inversion H; subst.
    destruct (IH b' eq_refl) as [s' [-> [Hb Hk]]].
    exists s'. simpl. now rewrite Hp, Hb.
Qed.

Lemma plus_inv (p : code_unit -> bool) (k : jsstring -> option R)
      (s b : jsstring) (r : R) :
  plus p k s = Some (b, r) ->
  exists s', s = b ++ s' /\ b <> [] /\ forallb p b = true /\ k s' = Some r.
Proof.
  unfold plus. destruct s as [|c t]; [discriminate|].
  destruct (p c) eqn:Hp; [|discriminate].
  destruct (star p k t) as [[b' r']|] eqn:Hs; [|discriminate].
  intros H. inversion H; subst.
  destruct (star_inv _ _ _ _ _ Hs) as [s' [-> [Hb Hk]]].
  exists s'. simpl. rewrite Hp, Hb. repeat split; [discriminate | exact Hk].
Qed.

(** The lazy run stops at the first place where the rest of the pattern
    matches. *)
Lemma lazy_any_inv (k : jsstring -> option R) (s b : jsstring) (r : R) :
  lazy_any k s = Some (b, r) ->
  exists s', s = b ++ s' /\ k s' = Some r
             /\ forall n, (n < List.length b)%nat -> k (skipn n s) = None.
Proof.
  revert b. induction s as [|c t IH]; intros b; simpl.
  - destruct (k []) eqn:Hk; [|discriminate]. intros H. inversion H; subst.
    exists []. repeat split; [exact Hk | simpl; intros; lia].
  - destruct (k (c :: t)) eqn:Hk.
    + intros H. inversion H; subst. exists (c :: t).
      repeat split; [exact Hk | simpl; intros; lia].
    + destruct (lazy_any k t) as [[b' r']|] eqn:Hl; [|discriminate].
      intros H. inversion H; subst.
      destruct (IH b' eq_refl) as [s' [-> [Hk' Hmin]]].
      exists s'. repeat split; [exact Hk'|].
      intros [|n] Hn; [exact Hk|]. simpl in *. apply Hmin. lia.
Qed.

End RegexFacts.

Section NoMatch.
Import Js Regex JsMore.
Context {C : Type} (re : regex C) (c : code_unit).

(** A pattern that only matches at a [c] finds nothing in, and removes
    nothing from, a text without [c]. *)
Hypothesis starts_with_c : forall s x, re s = Some x -> exists t, s = c :: t.

Lemma no_match_at (s : jsstring) : ~ In c s -> re s = None.
Proof.
  intros Hc. destruct (re s) eqn:H; [|reflexivity].
  destruct (starts_with_c _ _ H) as [t ->]. exfalso. apply Hc. now left.
Qed.

Lemma matchAll_without (s : jsstring) : ~ In c s -> matchAll re s = [].
Proof.
  intros Hc. apply scan_nil_iff.
  - apply no_match_at. intros [].
  - intros p. apply no_match_at. intros Hin. apply Hc.
    rewrite <- (firstn_skipn p s). apply in_or_app. now right.
Qed.

Lemma remove_all_without (s : jsstring) : ~ In c s -> remove_all re s = s.
Proof.
  unfold remove_all. induction s as [|x t IH]; [reflexivity|].
  intros Hc. cbn [remove_matches]. rewrite (no_match_at (x :: t) Hc).
  rewrite IH; [reflexivity|]. intros Hin. apply Hc. now right.
Qed.

End NoMatch.

(* ================================================================== *)
(** ** More on the directive batch extractor *)
(* ================================================================== *)

Section ExtractorMore.
Import Js Regex Markup.

Lemma attribute_inv {R} (name : string) (k : jsstring -> option R)
      (s digits : jsstring) (r : R) :
  attribute name k s = Some (digits, r) ->
  digits <> [] /\ forallb is_digit digits = true /\ exists s', k s' = Some r.
Proof.
  unfold attribute.
  destruct (lit _ _ s) as [[ws1 [ws2 [d r']]]|] eqn:E; [|discriminate].
  intros H. inversion H; subst. clear H.
  apply lit_with_inv in E. destruct E as [s1 [_ E]].
  apply star_inv in E. destruct E as [s2 [_ [_ E]]].
  apply lit_with_inv in E. destruct E as [s3 [_ E]].
  apply star_inv in E. destruct E as [s4 [_ [_ E]]].
  apply lit_with_inv in E. destruct E as [s5 [_ E]].
  apply plus_inv in E. destruct E as [s6 [_ [Hne [Hd E]]]].
  apply lit_with_inv in E. destruct E as [s7 [_ E]].
  repeat split; [exact Hne | exact Hd | now exists s7].
Qed.

Lemma count_attribute_inv {R} (k : jsstring -> option R)
      (s : jsstring) (m : option jsstring) (r : R) :
  count_attribute k s = Some (m, r) ->
  (forall digits, m = Some digits ->
                  digits <> [] /\ forallb is_digit digits = true)
  /\ exists s', k s' = Some r.
Proof.
  unfold count_attribute, opt.
  destruct (plus sp (attribute "count" k) s) as [[ws [d r']]|] eqn:E.
  - intros H. inversion H; subst. clear H.
    apply plus_inv in E. destruct E as [s1 [_ [_ [_ E]]]].
    apply attribute_inv in E. destruct E as [Hne [Hd Hk]].
    split; [|exact Hk]. intros digits Hm. inversion Hm; subst. now split.
  - destruct (k s) eqn:Hk; [|discriminate]. simpl. intros H.
    inversion H; subst. split; [discriminate | now exists s].
Qed.

(** The content up to the closing tag: the tag does not occur in it. *)
Lemma content_inv (closer s ws m rest : jsstring) :
  closer <> [] ->
  star sp (lit (str ">") (lazy_any (lit closer done))) s
  = Some (ws, (m, rest)) ->
  ~ occurs_in closer m.
Proof.
  intros Hne E [u [v Hm]].
  apply star_inv in E. destruct E as [s1 [_ [_ E]]].
  apply lit_with_inv in E. destruct E as [s2 [_ E]].
  apply lazy_any_inv in E. destruct E as [s3 [-> [_ Hmin]]].
  specialize (Hmin (List.length u)). subst m.
  rewrite <- !app_assoc, skipn_app, skipn_all, Nat.sub_diag in Hmin.
  simpl in Hmin.
  assert (Hk : lit closer done (closer ++ v ++ s3) = Some (v ++ s3))
    by (apply lit_with_inv; now exists (v ++ s3)).
  rewrite Hk in Hmin. enough (Some (v ++ s3) = None) by discriminate.
  apply Hmin. rewrite !length_app.
  destruct closer; [congruence | simpl; lia].
Qed.

Lemma is_digit_range (d : code_unit) :
  is_digit d = true -> 48 <= Z.of_N d <= 57.
Proof.
  unfold is_digit. intros H. apply andb_prop in H. destruct H as [H1 H2].
  apply N.leb_le in H1, H2. lia.
Qed.

Lemma parseInt_nonneg (digits : jsstring) :
  forallb is_digit digits = true -> 0 <= parseInt digits.
Proof.
  unfold parseInt.
  assert (H : forall acc, 0 <= acc -> forallb is_digit digits = true ->
              0 <= fold_left (fun acc d => 10 * acc + (Z.of_N d - 48))
                             digits acc); [|now apply H].
  induction digits as [|d t IH]; intros acc Hacc Hd; [exact Hacc|].
  cbn [fold_left forallb] in *. apply andb_prop in Hd. destruct Hd as [Hd Ht].
  apply is_digit_range in Hd. apply IH; [lia | exact Ht].
Qed.

Lemma parse_count_nonneg (m : option jsstring) :
  (forall digits, m = Some digits ->
                  digits <> [] /\ forallb is_digit digits = true) ->
  0 <= parse_count m.
Proof.
  intros H. destruct m as [[|d t]|]; simpl; try lia.
  apply parseInt_nonneg. now apply (H (d :: t)).
Qed.

Lemma count_or_1_pos (n : Z) : 0 <= n -> 1 <= count_or_1 (Some n).
Proof. intros H. simpl. destruct (Z.eqb_spec n 0); lia. Qed.

Lemma closing_tag_not_nil (k : EditType) : closing_tag k <> [].
Proof. destruct k; discriminate. Qed.

(** What each of the three patterns says of its captures. *)
Lemma insertRegex_inv (s m1 m2 rest : jsstring) :
  insertRegex s = Some ((m1, m2), rest) ->
  ~ occurs_in (closing_tag Insert) m2.
Proof.
  unfold insertRegex.
  destruct (lit _ _ s) as [[ws [d [ws' [c r]]]]|] eqn:E; [|discriminate].
  intros H. inversion H; subst. clear H.
  apply lit_with_inv in E. destruct E as [s1 [_ E]].
  apply plus_inv in E. destruct E as [s2 [_ [_ [_ E]]]].
  apply attribute_inv in E. destruct E as [_ [_ [s3 E]]].
  apply (content_inv _ _ _ _ _ (closing_tag_not_nil Insert) E).
Qed.

Lemma replaceRegex_inv (s m1 m3 rest : jsstring) (m2 : option jsstring) :
  replaceRegex s = Some ((m1, m2, m3), rest) ->
  0 <= parse_count m2 /\ ~ occurs_in (closing_tag Replace) m3.
Proof.
  unfold replaceRegex.
  destruct (lit _ _ s) as [[ws [d [n [ws' [c r]]]]]|] eqn:E; [|discriminate].
  intros H. inversion H; subst. clear H.
  apply lit_with_inv in E. destruct E as [s1 [_ E]].
  apply plus_inv in E. destruct E as [s2 [_ [_ [_ E]]]].
  apply attribute_inv in E. destruct E as [_ [_ [s3 E]]].
  apply count_attribute_inv in E. destruct E as [Hn [s4 E]].
  split; [now apply parse_count_nonneg|].
  apply (content_inv _ _ _ _ _ (closing_tag_not_nil Replace) E).
Qed.

Lemma deleteRegex_inv (s m1 rest : jsstring) (m2 : option jsstring) :
  deleteRegex s = Some ((m1, m2), rest) -> 0 <= parse_count m2.
Proof.
  unfold deleteRegex.
  destruct (lit _ _ s) as [[ws [d [n [ws' r]]]]|] eqn:E; [|discriminate].
  intros H. inversion H; subst. clear H.
  apply lit_with_inv in E. destruct E as [s1 [_ E]].
  apply plus_inv in E. destruct E as [s2 [_ [_ [_ E]]]].
  apply attribute_inv in E. destruct E as [_ [_ [s3 E]]].
  apply count_attribute_inv in E. destruct E as [Hn _].
  now apply parse_count_nonneg.
Qed.

(** A property of every edit of the result, from what it says of the
    edits of the three kinds. *)
Lemma parseTextEditMarkup_Forall (P : TextEditOperation -> Prop)
      (message : jsstring) :
  (forall s c rest, insertRegex s = Some (c, rest) ->
                    0 < line (insertion_of c) -> P (insertion_of c)) ->
  (forall s c rest, replaceRegex s = Some (c, rest) ->
                    0 < line (replacement_of c) -> P (replacement_of c)) ->
  (forall s c rest, deleteRegex s = Some (c, rest) ->
                    0 < line (deletion_of c) -> P (deletion_of c)) ->
  Forall P (parseTextEditMarkup message).
Proof.
  intros Hi Hr Hd. rewrite parseTextEditMarkup_eq, !Forall_app.
  repeat split; apply Forall_forall; intros e He;
    apply in_map_iff in He; destruct He as [m [<- Hm]];
    apply located_inv in Hm; destruct Hm as [Hk [c [rest [Hre Heq]]]];
    unfold keep_insertion, keep_counted in Hk;
    try (apply andb_prop in Hk; destruct Hk as [Hk _]);
    rewrite Z.gtb_ltb in Hk; apply Z.ltb_lt in Hk; rewrite Heq in *; eauto.
Qed.

(** X8. Every edit that the extractor returns is as the applier expects
    it: its line is 1 or more; an insert has a content and no count; a
    replace has a content and a count that is not negative; a delete has
    such a count and no content; the count reads as 1 or more. *)
Theorem extracted_edits_well_formed (message : jsstring) :
  Forall well_formed (parseTextEditMarkup message).
Proof.
  apply parseTextEditMarkup_Forall; intros s c rest Hre Hl.
  - destruct c as [m1 m2]. unfold well_formed. simpl in *.
    repeat split; [lia | lia | discriminate].
  - destruct c as [[m1 m2] m3].
    apply replaceRegex_inv in Hre. destruct Hre as [Hn _].
    unfold well_formed. cbn [replacement_of line count content type] in *.
    repeat split; [lia | now apply count_or_1_pos | | discriminate].
    exists (parse_count m2). now split.
  - destruct c as [m1 m2]. apply deleteRegex_inv in Hre.
    unfold well_formed. cbn [deletion_of line count content type] in *.
    repeat split; [lia | now apply count_or_1_pos | ].
    exists (parse_count m2). now split.
Qed.

(** X9. The content of an extracted insert or replace does not contain the
    closing tag of its kind: the content ends at the first closing tag
    after the opening one. *)
Theorem extracted_content_without_closing_tag (message : jsstring) :
  Forall (fun edit =>
            forall c, content edit = Some c ->
                      ~ occurs_in (closing_tag (type edit)) c)
         (parseTextEditMarkup message).
Proof.
  apply parseTextEditMarkup_Forall; intros s c rest Hre _ c' Hc.
  - destruct c as [m1 m2]. simpl in Hc. inversion Hc; subst.
    apply (insertRegex_inv _ _ _ _ Hre).
  - destruct c as [[m1 m2] m3]. simpl in Hc. inversion Hc; subst.
    apply (replaceRegex_inv _ _ _ _ _ Hre).
  - destruct c as [m1 m2]. discriminate Hc.
Qed.

Lemma trimStart_In (c : code_unit) (s : jsstring) :
  In c (trimStart s) -> In c s.
Proof.
  induction s as [|x t IH]; simpl; [auto|].
  destruct (is_space x); [intros H; right; now apply IH | auto].
Qed.

Lemma trim_In (c : code_unit) (s : jsstring) : In c (trim s) -> In c s.
Proof.
  unfold trim. intros H. apply in_rev, trimStart_In in H.
  apply in_rev in H. now apply trimStart_In.
Qed.

Lemma lit_starts {R} (name : string) (k : jsstring -> option R)
      (s : jsstring) (r : R) (c : code_unit) (l : jsstring) :
  str name = c :: l ->
  lit (str name) k s = Some r -> exists t, s = c :: t.
Proof.
  intros Hn H. apply lit_with_inv in H. destruct H as [s' [-> _]].
  rewrite Hn. now eexists.
Qed.

Ltac starts_with_lt :=
  let x := fresh "x" in
  let H := fresh "H" in
  let E := fresh "E" in
  intros ? x H;
  match type of H with
  | context [lit (str ?n) ?k ?s] =>
      destruct (lit (str n) k s) eqn:E; [|discriminate];
      apply (lit_starts n k s _ LT _ eq_refl E)
  end.

Lemma insertRegex_starts (s : jsstring) x :
  insertRegex s = Some x -> exists t, s = LT :: t.
Proof. revert s x. unfold insertRegex. starts_with_lt. Qed.

Lemma replaceRegex_starts (s : jsstring) x :
  replaceRegex s = Some x -> exists t, s = LT :: t.
Proof. revert s x. unfold replaceRegex. starts_with_lt. Qed.

Lemma deleteRegex_starts (s : jsstring) x :
  deleteRegex s = Some x -> exists t, s = LT :: t.
Proof. revert s x. unfold deleteRegex. starts_with_lt. Qed.

Lemma tagRegex_starts (name : string) (l : jsstring) :
  str name = LT :: l ->
  forall s x, AppControl.tagRegex name s = Some x -> exists t, s = LT :: t.
Proof.
  intros Hn s x. unfold AppControl.tagRegex.
  destruct (lit (str name) _ s) eqn:E; [|discriminate]. intros _.
  apply (lit_starts name _ s _ LT l Hn E).
Qed.

Lemma located_without {C} (re : regex C) of_match keep (t : jsstring) :
  (forall s x, re s = Some x -> exists u, s = LT :: u) ->
  ~ In LT t -> located re of_match keep t = [].
Proof.
  intros Hre Ht. unfold located. now rewrite (matchAll_without re LT Hre).
Qed.

(** X10. A message with no opening angle bracket holds no markup: the
    extractor returns no edit and [parseAppControlMarkup] no operation. *)
Theorem no_bracket_no_markup (message : jsstring) :
  ~ In LT message ->
  parseTextEditMarkup message = []
  /\ AppControl.parseAppControlMarkup message = [].
Proof.
  intros Hm. split.
  - rewrite parseTextEditMarkup_eq.
    assert (Ht : ~ In LT (trim message))
      by (intros H; apply Hm; now apply trim_In).
    unfold allInsertions, allReplacements, allDeletions.
    rewrite (located_without _ _ _ _ insertRegex_starts Ht).
    rewrite (located_without _ _ _ _ replaceRegex_starts Ht).
    now rewrite (located_without _ _ _ _ deleteRegex_starts Ht).
  - unfold AppControl.parseAppControlMarkup, AppControl.operations_of,
      AppControl.launchRegex, AppControl.closeRegex.
    rewrite (matchAll_without _ LT (tagRegex_starts "<app:launch" _ eq_refl))
      by exact Hm.
    now rewrite (matchAll_without _ LT (tagRegex_starts "<app:close" _ eq_refl))
      by exact Hm.
Qed.

Lemma no_bracket_no_markup_witness :
  parseTextEditMarkup (str "  2 > 1, as ever  ") = [].
Proof.
  apply (no_bracket_no_markup (str "  2 > 1, as ever  ")).
  vm_compute. intuition discriminate.
Defined.

End ExtractorMore.

(* ================================================================== *)
(** ** The app control markup and the cleaning of a message *)
(* ================================================================== *)

Section AppControlFacts.
Import Js Regex Markup AppControl.

Lemma tagRegex_inv (name : string) (s m1 rest : jsstring) :
  tagRegex name s = Some (m1, rest) ->
  m1 <> [] /\ ~ In QUOTE m1.
Proof.
  unfold tagRegex.
  destruct (lit _ _ s) as [[ws1 [ws2 [ws3 [d [ws4 r]]]]]|] eqn:E;
    [|discriminate].
  intros H. inversion H; subst. clear H.
  apply lit_with_inv in E. destruct E as [s1 [_ E]].
  apply plus_inv in E. destruct E as [s2 [_ [_ [_ E]]]].
  apply lit_with_inv in E. destruct E as [s3 [_ E]].
  apply star_inv in E. destruct E as [s4 [_ [_ E]]].
  apply lit_with_inv in E. destruct E as [s5 [_ E]].
  apply star_inv in E. destruct E as [s6 [_ [_ E]]].
  apply lit_with_inv in E. destruct E as [s7 [_ E]].
  apply plus_inv in E. destruct E as [s8 [_ [Hne [Hq _]]]].
  split; [exact Hne|]. intros Hin.
  rewrite forallb_forall in Hq. specialize (Hq _ Hin).
  unfold QUOTE in Hq. now rewrite N.eqb_refl in Hq.
Qed.

Lemma operations_of_inv (re : regex jsstring) (t : OperationType)
      (message : jsstring) (m : nat * AppControlOperation) :
  In m (operations_of re t message) ->
  type (snd m) = t
  /\ exists rest, re (skipn (fst m) message) = Some (id (snd m), rest).
Proof.
  unfold operations_of. intros H. apply in_map_iff in H.
  destruct H as [[p c] [<- H]]. simpl. split; [reflexivity|].
  destruct (scan_sound re _ _ _ _ _ H) as [rest Hrest].
  rewrite Nat.sub_0_r in Hrest. now exists rest.
Qed.

(** X11. The id of every operation that [parseAppControlMarkup] returns
    is not empty and holds no double quote. *)
Theorem app_control_ids (message : jsstring) :
  Forall (fun op => id op <> [] /\ ~ In QUOTE (id op))
         (parseAppControlMarkup message).
Proof.
  unfold parseAppControlMarkup. rewrite Forall_app.
  split; apply Forall_forall; intros op Hop;
    apply in_map_iff in Hop; destruct Hop as [m [<- Hm]];
    apply operations_of_inv in Hm; destruct Hm as [_ [rest Hre]];
    apply (tagRegex_inv _ _ _ _ Hre).
Qed.

(** X12. [parseAppControlMarkup] returns the launches before the closes,
    wherever they stand in the message; the launches among themselves, and
    the closes among themselves, are in the order of the message, each
    being the match of its pattern at its index. *)
Theorem app_control_order (message : jsstring) :
  let launches := operations_of launchRegex launch message in
  let closes := operations_of closeRegex close message in
  parseAppControlMarkup message = map snd launches ++ map snd closes
  /\ Forall (fun m => type (snd m) = launch
                      /\ exists rest, launchRegex (skipn (fst m) message)
                                      = Some (id (snd m), rest)) launches
  /\ Forall (fun m => type (snd m) = close
                      /\ exists rest, closeRegex (skipn (fst m) message)
                                      = Some (id (snd m), rest)) closes
  /\ StronglySorted lt (map fst launches)
  /\ StronglySorted lt (map fst closes).
Proof.
  intros launches closes. split; [reflexivity|].
  repeat split;
    try (apply Forall_forall; intros m Hm; now apply operations_of_inv);
    unfold launches, closes, operations_of; rewrite map_map;
    apply scan_sorted.
Qed.

End AppControlFacts.

Section CleanFacts.
Import Js Regex JsMore Clean.

Lemma selfClosedRegex_starts (name : string) (l : jsstring) :
  str name = LT :: l ->
  forall s x, selfClosedRegex name s = Some x -> exists t, s = LT :: t.
Proof.
  intros Hn s x. unfold selfClosedRegex, no_capture.
  destruct (lit (str name) _ s) eqn:E; [|discriminate]. intros _.
  apply (lit_starts name _ s _ LT l Hn E).
Qed.

Lemma pairedRegex_starts (open_ close_ : string) (l : jsstring) :
  str open_ = LT :: l ->
  forall s x, pairedRegex open_ close_ s = Some x -> exists t, s = LT :: t.
Proof.
  intros Hn s x. unfold pairedRegex, no_capture.
  destruct (lit (str open_) _ s) eqn:E; [|discriminate]. intros _.
  apply (lit_starts open_ _ s _ LT l Hn E).
Qed.

(** X13. A message with no opening angle bracket is only trimmed by the
    two cleaning functions. *)
Theorem clean_without_bracket (message : jsstring) :
  ~ In LT message ->
  cleanAppControlMarkup message = trim message
  /\ cleanTextEditMarkup message = trim message.
Proof.
  intros Hm. unfold cleanAppControlMarkup, cleanTextEditMarkup. split.
  - rewrite (remove_all_without _ LT
               (selfClosedRegex_starts "<app:launch" _ eq_refl) _ Hm).
    now rewrite (remove_all_without _ LT
                   (selfClosedRegex_starts "<app:close" _ eq_refl) _ Hm).
  - rewrite (remove_all_without _ LT
               (pairedRegex_starts "<textedit:insert" _ _ eq_refl) _ Hm).
    rewrite (remove_all_without _ LT
               (pairedRegex_starts "<textedit:replace" _ _ eq_refl) _ Hm).
    now rewrite (remove_all_without _ LT
                   (selfClosedRegex_starts "<textedit:delete" _ eq_refl) _ Hm).
Qed.

Lemma clean_without_bracket_witness :
  cleanTextEditMarkup (str "  done, 3 lines  ") = str "done, 3 lines".
Proof.
  apply (clean_without_bracket (str "  done, 3 lines  ")).
  vm_compute. intuition discriminate.
Defined.

Lemma left_out_refl (s : jsstring) : left_out s s.
Proof. induction s; constructor; auto. Qed.

Lemma left_out_trans (s t u : jsstring) :
  left_out s t -> left_out t u -> left_out s u.
Proof.
  intros Hst Htu. revert s Hst.
  induction Htu as [|c t u Htu IH|c t u Htu IH]; intros s Hst.
  - exact Hst.
  - inversion Hst; subst; constructor; auto.
  - constructor; auto.
Qed.

Lemma left_out_app (s t s' t' : jsstring) :
  left_out s t -> left_out s' t' -> left_out (s ++ s') (t ++ t').
Proof.
  intros H H'. induction H; simpl; [exact H' | |]; constructor; auto.
Qed.

Lemma left_out_rev (s t : jsstring) : left_out s t -> left_out (rev s) (rev t).
Proof.
  induction 1; simpl.
  - constructor.
  - apply left_out_app; [assumption | apply left_out_refl].
  - rewrite <- (app_nil_r (rev s)). apply left_out_app; [assumption|].
    repeat constructor.
Qed.

Lemma trimStart_left_out (s : jsstring) : left_out (trimStart s) s.
Proof.
  induction s as [|c t IH]; simpl; [constructor|].
  destruct (is_space c); [now constructor | apply left_out_refl].
Qed.

Lemma trim_left_out (s : jsstring) : left_out (trim s) s.
Proof.
  unfold trim. apply (left_out_trans _ (trimStart s));
    [|apply trimStart_left_out].
  rewrite <- (rev_involutive (trimStart s)) at 2.
  apply left_out_rev, trimStart_left_out.
Qed.

Lemma remove_all_left_out {C} (re : regex C) (s : jsstring) :
  left_out (remove_all re s) s.
Proof.
  unfold remove_all. generalize 0%nat as skip.
  induction s as [|c t IH]; intros skip; simpl; [constructor|].
  destruct skip as [|k]; [|constructor; apply IH].
  destruct (re (c :: t)) as [[x rest]|]; constructor; apply IH.
Qed.

(** X14. The two cleaning functions only leave code units out: the result
    is the message with some of its code units removed, none added and none
    moved. *)
Theorem clean_only_leaves_out (message : jsstring) :
  left_out (cleanAppControlMarkup message) message
  /\ left_out (cleanTextEditMarkup message) message.
Proof.
  unfold cleanAppControlMarkup, cleanTextEditMarkup. split.
  - eapply left_out_trans; [apply trim_left_out|].
    eapply left_out_trans; apply remove_all_left_out.
  - eapply left_out_trans; [apply trim_left_out|].
    eapply left_out_trans; [apply remove_all_left_out|].
    eapply left_out_trans; apply remove_all_left_out.
Qed.

End CleanFacts.

(* ================================================================== *)
(** ** The colour of a user name *)
(* ================================================================== *)

Section ColorsFacts.
Import Js Colors.

Lemma hash_from (u : jsstring) (acc : Z) :
  fold_left (fun acc char => acc + Z.of_N char) u acc = acc + hash u.
Proof.
  unfold hash. revert acc. induction u as [|c t IH]; intros acc; simpl.
  - lia.
  - rewrite IH, (IH (Z.of_N c)). lia.
Qed.

Lemma hash_cons (c : code_unit) (u : jsstring) :
  hash (c :: u) = Z.of_N c + hash u.
Proof. unfold hash at 1. simpl. apply hash_from. Qed.

(** The sum is never negative, so that the remainder of JavaScript is the
    modulus. *)
Lemma hash_nonneg (u : jsstring) : 0 <= hash u.
Proof. induction u as [|c t IH]; [unfold hash; simpl|rewrite hash_cons]; lia. Qed.

Lemma hash_perm (u v : jsstring) : Permutation u v -> hash u = hash v.
Proof.
  induction 1; rewrite ?hash_cons; lia.
Qed.

Lemma fallbackColor_apart : ~ In fallbackColor userColors.
Proof. vm_compute. intuition discriminate. Qed.

(** X15. [getUserColorClass] always returns a class, never [undefined]:
    the grey fallback when the name is absent or empty, and only then, and
    one of the eight user colours otherwise. *)
Theorem user_color_defined (username : option jsstring) :
  exists c,
    getUserColorClass username = Some c
    /\ (c = fallbackColor <-> username = None \/ username = Some [])
    /\ (c <> fallbackColor -> In c userColors).
Proof.
  destruct username as [[|x u]|].
  - exists fallbackColor. repeat split; auto. congruence.
  - cbn [getUserColorClass].
    assert (Hlt : (Z.to_nat (hash (x :: u) mod length userColors)
                   < List.length userColors)%nat).
    { pose proof (Z.mod_pos_bound (hash (x :: u)) (length userColors)) as H.
      unfold length in *. simpl in *. lia. }
    destruct (nth_error userColors _) as [c|] eqn:Hc;
      [|apply nth_error_None in Hc; lia].
    apply nth_error_In in Hc. exists c. repeat split; auto.
    + intros ->. exfalso. now apply fallbackColor_apart.
    + intros [H|H]; discriminate.
  - exists fallbackColor. repeat split; auto. congruence.
Qed.

(** X16. The colour depends on the code units of the name and not on
    their order: two names that are rearrangements of one another get the
    same colour. *)
Theorem user_color_of_rearranged_name (u v : jsstring) :
  Permutation u v ->
  getUserColorClass (Some u) = getUserColorClass (Some v).
Proof.
  intros Hp. pose proof (hash_perm u v Hp) as Hh.
  destruct u as [|x u], v as [|y v]; try reflexivity.
  - apply Permutation_nil in Hp. discriminate.
  - apply Permutation_sym, Permutation_nil in Hp. discriminate.
  - cbn [getUserColorClass]. now rewrite Hh.
Qed.

Lemma user_color_of_rearranged_name_witness :
  getUserColorClass (Some (str "ab")) = getUserColorClass (Some (str "ba")).
Proof.
  apply (user_color_of_rearranged_name (str "ab") (str "ba")).
  apply perm_swap.
Defined.

End ColorsFacts.

(* ================================================================== *)
(** ** The truncation of a file name *)
(* ================================================================== *)

Section FilenameFacts.
Import Js JsMore Filename.

Lemma slice_0 (s : jsstring) (e : Z) :
  0 <= e -> slice s 0 e = firstn (Z.to_nat e) s.
Proof.
  intros He. pose proof (length_nonneg s) as Hl.
  unfold slice, relative_index. simpl (0 <? 0).
  destruct (Z.ltb_spec e 0); [lia|].
  rewrite (Z.min_l 0) by lia. simpl skipn. rewrite Z.sub_0_r.
  rewrite Z.max_l by lia.
  destruct (Z.le_gt_cases e (length s)).
  - now rewrite Z.min_l by lia.
  - rewrite Z.min_r by lia. unfold length in *.
    rewrite !firstn_all2; [reflexivity | lia | lia].
Qed.

Lemma length_slice_0 (s : jsstring) (e : Z) :
  length (slice s 0 e)
  = if e <? 0 then Z.max (length s + e) 0 else Z.min e (length s).
Proof.
  pose proof (length_nonneg s) as Hl.
  destruct (Z.ltb_spec e 0).
  - unfold slice, relative_index. simpl (0 <? 0).
    destruct (Z.ltb_spec e 0); [|lia].
    rewrite (Z.min_l 0) by lia. simpl skipn. rewrite Z.sub_0_r.
    unfold length in *. rewrite length_firstn. lia.
  - rewrite slice_0 by lia. unfold length in *. rewrite length_firstn. lia.
Qed.

Lemma slice_from_in (s : jsstring) (i : Z) :
  0 <= i <= length s -> slice_from s i = skipn (Z.to_nat i) s.
Proof.
  intros Hi. unfold slice_from, slice, relative_index.
  destruct (Z.ltb_spec i 0); [lia|].
  destruct (Z.ltb_spec (length s) 0); [lia|].
  rewrite Z.min_id, (Z.min_l i) by lia.
  apply firstn_all2. unfold length in *. rewrite length_skipn. lia.
Qed.

Lemma lastIndexOf_from_range (c : code_unit) (s : jsstring) (pos found : Z) :
  lastIndexOf_from c s pos found = found
  \/ pos <= lastIndexOf_from c s pos found < pos + length s.
Proof.
  revert pos found. induction s as [|x t IH]; intros pos found; simpl.
  - now left.
  - unfold length in *. simpl List.length.
    destruct (IH (pos + 1) (if N.eqb x c then pos else found)) as [H|H].
    + rewrite H. destruct (N.eqb x c); [right; lia | now left].
    + right. lia.
Qed.

Lemma lastIndexOf_range (c : code_unit) (s : jsstring) :
  lastIndexOf c s = -1 \/ 0 <= lastIndexOf c s < length s.
Proof. apply lastIndexOf_from_range. Qed.

Lemma lastIndexOf_from_absent (c : code_unit) (s : jsstring) (pos found : Z) :
  ~ In c s -> lastIndexOf_from c s pos found = found.
Proof.
  revert pos found. induction s as [|x t IH]; intros pos found Hc; simpl;
    [reflexivity|].
  rewrite IH by (intros H; apply Hc; now right).
  destruct (N.eqb_spec x c) as [->|]; [|reflexivity].
  exfalso. apply Hc. now left.
Qed.

Lemma lastIndexOf_last (c : code_unit) (name ext : jsstring) :
  ~ In c ext -> lastIndexOf c (name ++ c :: ext) = length name.
Proof.
  intros Hc. unfold lastIndexOf.
  assert (H : forall pos found,
             lastIndexOf_from c (name ++ c :: ext) pos found
             = pos + length name); [|now rewrite H].
  induction name as [|x t IH]; intros pos found; simpl.
  - rewrite N.eqb_refl, lastIndexOf_from_absent by exact Hc.
    unfold length. simpl. lia.
  - rewrite IH. unfold length. simpl List.length. lia.
Qed.

Lemma length_ellipsis : length ellipsis = 3.
Proof. reflexivity. Qed.

Lemma length_app_Z {A} (l l' : list A) :
  length (l ++ l') = length l + length l'.
Proof. unfold length. rewrite length_app. lia. Qed.

(** X17. With a bound of 3 or more, the result of [truncateFilename] is
    the name itself when it fits, and has exactly the length of the bound
    when it does not: it is never longer than the bound. *)
Theorem truncated_length (filename : jsstring) (maxLength : Z) :
  3 <= maxLength ->
  length (truncateFilename filename (Some maxLength))
  = Z.min (length filename) maxLength.
Proof.
  intros Hm. pose proof (length_nonneg filename) as Hl.
  unfold truncateFilename.
  destruct (Z.leb_spec (length filename) maxLength); [lia|].
  rewrite Z.min_r by lia.
  destruct (Z.eqb_spec (lastIndexOf DOT filename) (-1)) as [Hi|Hi].
  - change (length []) with 0.
    destruct (Z.leb_spec (maxLength - 0 - 3) 0).
    + rewrite length_app_Z, length_slice_0, length_ellipsis.
      destruct (Z.ltb_spec (maxLength - 3) 0); lia.
    + rewrite !length_app_Z, length_slice_0, length_slice_0, length_ellipsis.
      change (length []) with 0.
      destruct (Z.ltb_spec (length filename) 0); [lia|].
      destruct (Z.ltb_spec (maxLength - 0 - 3) 0); lia.
  - destruct (lastIndexOf_range DOT filename) as [|Hr]; [contradiction|].
    set (i := lastIndexOf DOT filename) in *.
    rewrite slice_from_in by lia.
    assert (He : length (skipn (Z.to_nat i) filename) = length filename - i)
      by (unfold length in *; rewrite length_skipn; lia).
    rewrite He.
    destruct (Z.leb_spec (maxLength - (length filename - i) - 3) 0).
    + rewrite length_app_Z, length_slice_0, length_ellipsis.
      destruct (Z.ltb_spec (maxLength - 3) 0); lia.
    + rewrite !length_app_Z, length_slice_0, length_slice_0, length_ellipsis, He.
      destruct (Z.ltb_spec i 0); [lia|].
      destruct (Z.ltb_spec (maxLength - (length filename - i) - 3) 0); lia.
Qed.

Lemma truncated_length_witness :
  length (truncateFilename (str "a-long-name-for-a-file.markdown") (Some 12))
  = Z.min (length (str "a-long-name-for-a-file.markdown")) 12.
Proof.
  apply (truncated_length (str "a-long-name-for-a-file.markdown") 12). lia.
Defined.

(** X18. With a bound below 3 the bound is not kept: a name longer than
    the bound loses [3 - maxLength] code units at its end, if it has as
    many, and gets the three dots, so that the result is longer than the
    bound. *)
Theorem truncated_below_three (filename : jsstring) (maxLength : Z) :
  maxLength < 3 ->
  maxLength < length filename ->
  length (truncateFilename filename (Some maxLength))
  = Z.max (length filename + maxLength - 3) 0 + 3
  /\ maxLength < length (truncateFilename filename (Some maxLength)).
Proof.
  intros Hm Hf. pose proof (length_nonneg filename) as Hl.
  assert (H : length (truncateFilename filename (Some maxLength))
              = Z.max (length filename + maxLength - 3) 0 + 3); [|lia].
  unfold truncateFilename.
  destruct (Z.leb_spec (length filename) maxLength); [lia|].
  match goal with
  | |- context [length ?e] =>
      match e with
      | if _ then [] else _ =>
          pose proof (length_nonneg e) as Hext;
          set (extension := e) in *
      end
  end.
  destruct (Z.leb_spec (maxLength - length extension - 3) 0); [|lia].
  rewrite length_app_Z, length_slice_0, length_ellipsis.
  destruct (Z.ltb_spec (maxLength - 3) 0); lia.
Qed.

Lemma truncated_below_three_witness :
  2 < length (truncateFilename (str "abcdef") (Some 2)).
Proof.
  apply (truncated_below_three (str "abcdef") 2); [lia | vm_compute; reflexivity].
Defined.

(** X19. A name longer than the bound that ends in a dot and an extension
    without a dot, where the extension, its dot and the three dots leave
    room for at least one code unit, is cut to the start of the name before
    the dot, the three dots, and the whole extension. *)
Theorem truncated_keeps_extension (name ext : jsstring) (maxLength : Z) :
  ~ In DOT ext ->
  maxLength < length (name ++ DOT :: ext) ->
  length ext + 4 < maxLength ->
  truncateFilename (name ++ DOT :: ext) (Some maxLength)
  = firstn (Z.to_nat (maxLength - length ext - 4)) name
      ++ ellipsis ++ DOT :: ext.
Proof.
  intros Hext Hlong Hroom.
  pose proof (length_nonneg name) as Hn. pose proof (length_nonneg ext) as He.
  unfold truncateFilename.
  destruct (Z.leb_spec (length (name ++ DOT :: ext)) maxLength); [lia|].
  rewrite (lastIndexOf_last DOT name ext Hext).
  destruct (Z.eqb_spec (length name) (-1)); [lia|].
  assert (Hlen : length (name ++ DOT :: ext) = length name + length ext + 1).
  { rewrite length_app_Z. unfold length. simpl List.length. lia. }
  rewrite slice_from_in by lia.
  assert (Hskip : skipn (Z.to_nat (length name)) (name ++ DOT :: ext)
                  = DOT :: ext).
  { unfold length. rewrite Nat2Z.id, skipn_app, skipn_all, Nat.sub_diag.
    reflexivity. }
  rewrite Hskip.
  assert (Hde : length (DOT :: ext) = length ext + 1)
    by (unfold length; simpl List.length; lia).
  rewrite Hde.
  destruct (Z.leb_spec (maxLength - (length ext + 1) - 3) 0); [lia|].
  rewrite !slice_0 by lia.
  unfold length at 2. rewrite Nat2Z.id, firstn_app, firstn_all, Nat.sub_diag.
  simpl (firstn 0 _). rewrite app_nil_r.
  now replace (maxLength - (length ext + 1) - 3)
    with (maxLength - length ext - 4) by lia.
Qed.

Lemma truncated_keeps_extension_witness :
  truncateFilename (str "a-long-name-for-a-file" ++ DOT :: str "md") (Some 12)
  = str "a-long..." ++ DOT :: str "md".
Proof.
  apply (truncated_keeps_extension (str "a-long-name-for-a-file") (str "md") 12);
    [vm_compute; intuition discriminate | vm_compute; reflexivity
     | vm_compute; reflexivity].
Defined.

End FilenameFacts.

(* ================================================================== *)
(** ** Inline formatting, there and back *)
(* ================================================================== *)

Section InlineFacts.
Import Js Regex Inline.

Lemma lazy_star_inv {R} (p : code_unit -> bool) (k : jsstring -> option R)
      (s b : jsstring) (r : R) :
  lazy_star p k s = Some (b, r) -> exists s', s = b ++ s' /\ k s' = Some r.
Proof.
  revert b. induction s as [|c t IH]; intros b; simpl.
  - destruct (k []) eqn:Hk; [|discriminate]. intros H. inversion H; subst.
    now exists [].
  - destruct (k (c :: t)) eqn:Hk.
    + intros H. inversion H; subst. now exists (c :: t).
    + destruct (p c); [|discriminate].
      destruct (lazy_star p k t) as [[b' r']|]; [|discriminate].
      intros H. inversion H; subst.
      destruct (IH b' eq_refl) as [s' [-> Hk']]. now exists s'.
Qed.

Lemma lazy_plus_inv {R} (p : code_unit -> bool) (k : jsstring -> option R)
      (s b : jsstring) (r : R) :
  lazy_plus p k s = Some (b, r) ->
  exists s', s = b ++ s' /\ b <> [] /\ k s' = Some r.
Proof.
  unfold lazy_plus. destruct s as [|c t]; [discriminate|].
  destruct (p c); [|discriminate].
  destruct (lazy_star p k t) as [[b' r']|] eqn:Hs; [|discriminate].
  intros H. inversion H; subst.
  destruct (lazy_star_inv _ _ _ _ _ Hs) as [s' [-> Hk]].
  exists s'. repeat split; [discriminate | exact Hk].
Qed.

(** What a match of one of the patterns says of the text. *)
Lemma delimited_inv (open_ close_ : string) (s m1 rest : jsstring)
      (m2 : option jsstring) (len : nat) :
  delimited open_ close_ s = Some ((m1, m2, len), rest) ->
  m2 = None /\ m1 <> []
  /\ s = (str open_ ++ m1 ++ str close_) ++ rest
  /\ len = List.length (str open_ ++ m1 ++ str close_).
Proof.
  unfold delimited.
  destruct (lit _ _ s) as [[c r]|] eqn:E; [|discriminate].
  intros H. inversion H; subst. clear H.
  apply lit_with_inv in E. destruct E as [s1 [-> E]].
  apply lazy_plus_inv in E. destruct E as [s2 [-> [Hne E]]].
  apply lit_with_inv in E. destruct E as [s3 [-> E]].
  inversion E; subst.
  repeat split; [exact Hne | now rewrite <- !app_assoc|].
  rewrite !length_app. lia.
Qed.

Lemma link_inv (s m1 rest : jsstring) (m2 : option jsstring) (len : nat) :
  link s = Some ((m1, m2, len), rest) ->
  exists u,
    m2 = Some u /\ u <> []
    /\ s = (str "[" ++ m1 ++ str "](" ++ u ++ str ")") ++ rest
    /\ len = List.length (str "[" ++ m1 ++ str "](" ++ u ++ str ")").
Proof.
  unfold link.
  destruct (lit _ _ s) as [[c [u r]]|] eqn:E; [|discriminate].
  intros H. inversion H; subst. clear H.
  apply lit_with_inv in E. destruct E as [s1 [-> E]].
  apply lazy_plus_inv in E. destruct E as [s2 [-> [_ E]]].
  apply lit_with_inv in E. destruct E as [s3 [-> E]].
  apply lazy_plus_inv in E. destruct E as [s4 [-> [Hu E]]].
  apply lit_with_inv in E. destruct E as [s5 [-> E]].
  inversion E; subst. exists u.
  repeat split; [exact Hu | now rewrite <- !app_assoc |].
  rewrite !length_app. lia.
Qed.

Lemma substring_at (text piece rest : jsstring) (i : nat) :
  piece <> [] ->
  skipn i text = piece ++ rest ->
  (i <= i + List.length piece <= List.length text)%nat
  /\ substring text i (i + List.length piece) = piece.
Proof.
  intros Hne H.
  assert (Hlen : (i + List.length piece <= List.length text)%nat).
  { assert (Hl : List.length (skipn i text)
                 = (List.length piece + List.length rest)%nat)
      by (rewrite H; apply length_app).
    rewrite length_skipn in Hl.
    destruct piece as [|c piece']; [congruence | simpl in *; lia]. }
  split; [lia|]. unfold substring.
  rewrite !Nat.min_l, Nat.max_r by lia.
  replace (i + List.length piece - i)%nat with (List.length piece) by lia.
  rewrite H, firstn_app, firstn_all, Nat.sub_diag. simpl.
  apply app_nil_r.
Qed.

Lemma matches_of_inv (text : jsstring) (pattern : regex captures * jsstring)
      (m : InlineMatch) :
  In m (matches_of text pattern) ->
  exists len rest,
    fst pattern (skipn (start m) text)
    = Some ((match_content m, url m, len), rest)
    /\ end_ m = (start m + len)%nat /\ mark m = snd pattern.
Proof.
  unfold matches_of. intros H. apply in_map_iff in H.
  destruct H as [[p [[m1 m2] len]] [<- H]].
  destruct (scan_sound _ _ _ _ _ _ H) as [rest Hrest].
  rewrite Nat.sub_0_r in Hrest. exists len, rest. now simpl.
Qed.

Lemma delimited_covers (open_ close_ : string) (mu text : jsstring)
      (m : InlineMatch) :
  (forall i e c, written (mkMatch i e c mu None)
                 = str open_ ++ c ++ str close_) ->
  In m (matches_of text (delimited open_ close_, mu)) ->
  covers text m.
Proof.
  intros Hw Hin. apply matches_of_inv in Hin.
  destruct Hin as [len [rest [Hre [Hend Hmark]]]]. simpl in Hre, Hmark.
  apply delimited_inv in Hre. destruct Hre as [Hu [Hne [Hs Hlen]]].
  assert (Hpiece : str open_ ++ match_content m ++ str close_ <> []).
  { intros H. apply app_eq_nil in H. destruct H as [_ H].
    apply app_eq_nil in H. now destruct H. }
  destruct (substring_at _ _ _ _ Hpiece Hs) as [Hb Hsub].
  unfold covers. rewrite Hend, Hlen. split; [exact Hb|].
  rewrite Hsub. destruct m as [i e c mk u]. simpl in *. subst.
  symmetry. apply Hw.
Qed.

Lemma link_covers (text : jsstring) (m : InlineMatch) :
  In m (matches_of text (link, str "link")) -> covers text m.
Proof.
  intros Hin. apply matches_of_inv in Hin.
  destruct Hin as [len [rest [Hre [Hend Hmark]]]]. simpl in Hre, Hmark.
  apply link_inv in Hre. destruct Hre as [u [Hu [Hne [Hs Hlen]]]].
  assert (Hpiece : str "[" ++ match_content m ++ str "](" ++ u ++ str ")"
                   <> []) by discriminate.
  destruct (substring_at _ _ _ _ Hpiece Hs) as [Hb Hsub].
  unfold covers. rewrite Hend, Hlen. split; [exact Hb|].
  rewrite Hsub. destruct m as [i e c mk v]. simpl in *. subst.
  destruct u as [|x u]; [congruence | reflexivity].
Qed.

Lemma delimited_starts (open_ close_ : string) (c : code_unit) (l : jsstring) :
  str open_ = c :: l ->
  forall s x, delimited open_ close_ s = Some x -> exists t, s = c :: t.
Proof.
  intros Hn s x. unfold delimited.
  destruct (lit (str open_) _ s) eqn:E; [|discriminate]. intros _.
  apply lit_with_inv in E. destruct E as [s' [-> _]]. rewrite Hn.
  now eexists.
Qed.

(** Without an underscore in the text, what is written for each match is
    the piece of the text that the match covers. *)
Lemma allMatches_cover (text : jsstring) :
  ~ In UNDERSCORE text -> Forall (covers text) (allMatches text).
Proof.
  intros Hu. unfold allMatches, patterns. cbn [flat_map].
  assert (Hnone : matches_of text (delimited "_" "_", str "italic") = []).
  { unfold matches_of. cbn [fst].
    now rewrite (matchAll_without _ UNDERSCORE
                   (delimited_starts "_" "_" _ _ eq_refl) text Hu). }
  rewrite Hnone, app_nil_r, !Forall_app.
  repeat split; apply Forall_forall; intros m Hm;
    try (now apply link_covers);
    eapply delimited_covers; try exact Hm; reflexivity.
Qed.

Lemma insert_by_start_In (m x : InlineMatch) (l : list InlineMatch) :
  In x (insert_by_start m l) -> x = m \/ In x l.
Proof.
  induction l as [|y t IH]; simpl.
  - intros [<- | []]; now left.
  - destruct (start m <=? start y)%nat; simpl; intros [<- | H]; auto.
    destruct (IH H); auto.
Qed.

Lemma sort_by_start_In (x : InlineMatch) (l : list InlineMatch) :
  In x (sort_by_start l) -> In x l.
Proof.
  induction l as [|m t IH]; simpl; [auto|].
  intros H. apply insert_by_start_In in H. destruct H as [-> | H]; auto.
Qed.

Lemma remove_overlaps_In (turns : nat) (x : InlineMatch)
      (todo : list InlineMatch) :
  In x (remove_overlaps turns todo) -> In x todo.
Proof.
  revert todo. induction turns as [|n IH]; intros todo; [destruct todo; auto|].
  destruct todo as [|m later]; [auto|]. simpl.
  intros [<- | H]; [now left|]. right.
  apply IH, filter_In in H. tauto.
Qed.

Lemma remove_overlaps_in_a_row (turns : nat) (todo : list InlineMatch)
      (bound : nat) :
  (List.length todo <= turns)%nat ->
  Forall (fun x => (bound <= start x)%nat) todo ->
  in_a_row bound (remove_overlaps turns todo).
Proof.
  revert todo bound. induction turns as [|n IH]; intros todo bound Hlen Hall.
  - destruct todo; [exact I | simpl in Hlen; lia].
  - destruct todo as [|m later]; [exact I|].
    inversion Hall as [|? ? Hm Hlater]; subst. simpl. split; [exact Hm|].
    apply IH.
    + pose proof (filter_length_le
                    (fun x => negb (start x <? end_ m)%nat) later).
      simpl in Hlen. lia.
    + apply Forall_forall. intros x Hx. apply filter_In in Hx.
      destruct Hx as [_ Hx]. apply negb_true_iff, Nat.ltb_ge in Hx. exact Hx.
Qed.

(** X20. The matches that the two nested loops keep follow one another:
    whatever the list and its order, none of them starts before the one
    kept before it ends. *)
Theorem kept_matches_in_a_row (l : list InlineMatch) :
  in_a_row 0 (remove_overlaps (List.length l) l).
Proof.
  apply remove_overlaps_in_a_row; [lia|].
  apply Forall_forall. intros; lia.
Qed.

Lemma substring_skipn (text : jsstring) (a b : nat) :
  (a <= b <= List.length text)%nat ->
  skipn a text = substring text a b ++ skipn b text.
Proof.
  intros H. unfold substring. rewrite !Nat.min_l, Nat.max_r by lia.
  replace (skipn b text) with (skipn (b - a) (skipn a text)).
  - symmetry. apply firstn_skipn.
  - rewrite skipn_skipn. f_equal. lia.
Qed.

(** From [currentPosition] on, the nodes of the loop write the text. *)
Lemma assemble_written (text : jsstring) (ms : list InlineMatch)
      (currentPosition : nat) :
  in_a_row currentPosition ms ->
  Forall (covers text) ms ->
  (currentPosition <= List.length text)%nat ->
  List.concat (map node_text (assemble text currentPosition ms))
  = skipn currentPosition text.
Proof.
  revert currentPosition.
  induction ms as [|m rest IH]; intros cp Hrow Hcov Hcp; cbn [assemble].
  - destruct (Nat.ltb_spec cp (List.length text)).
    + cbn [map List.concat]. change (node_text (plain ?t)) with t.
      rewrite app_nil_r, (substring_skipn text cp (List.length text)) by lia.
      now rewrite skipn_all, app_nil_r.
    + now rewrite skipn_all2 by lia.
  - destruct Hrow as [Hstart Hrow].
    inversion Hcov as [|? ? [Hb Hw] Hrest]; subst.
    rewrite map_app, concat_app. cbn [map List.concat].
    rewrite (IH (end_ m) Hrow Hrest) by lia.
    fold (written m). rewrite <- Hw.
    rewrite <- (substring_skipn text (start m) (end_ m)) by lia.
    destruct (Nat.ltb_spec cp (start m)).
    + cbn [map List.concat]. change (node_text (plain ?t)) with t.
      rewrite app_nil_r. symmetry. apply substring_skipn. lia.
    + replace cp with (start m) by lia. reflexivity.
Qed.

(** X21. A text with no underscore comes back from its inline nodes: what
    [extractTextFromContentNode] writes for the nodes that
    [processInlineMarkdown] makes of the text is the text itself. *)
Theorem inline_markdown_round_trip (text : jsstring) :
  ~ In UNDERSCORE text ->
  extractTextFromContentNode (mkContentNode (Some (processInlineMarkdown text)))
  = text.
Proof.
  intros Hu. unfold extractTextFromContentNode, processInlineMarkdown.
  cbn [content].
  set (sorted := sort_by_start (allMatches text)).
  rewrite assemble_written; [reflexivity | | | lia].
  - apply remove_overlaps_in_a_row; [lia|].
    apply Forall_forall. intros; lia.
  - pose proof (allMatches_cover text Hu) as Hcov.
    rewrite Forall_forall in *. intros m Hm.
    apply Hcov, sort_by_start_In. now apply remove_overlaps_In in Hm.
Qed.

Lemma inline_markdown_round_trip_witness :
  extractTextFromContentNode
    (mkContentNode
       (Some (processInlineMarkdown (str "a **b** *c* [d](e) ~~f~~"))))
  = str "a **b** *c* [d](e) ~~f~~".
Proof.
  apply (inline_markdown_round_trip (str "a **b** *c* [d](e) ~~f~~")).
  vm_compute. intuition discriminate.
Defined.

Lemma link_starts (s : jsstring) x :
  link s = Some x -> exists t, s = 91%N :: t.
Proof.
  unfold link. destruct (lit (str "[") _ s) eqn:E; [|discriminate]. intros _.
  apply lit_with_inv in E. destruct E as [s' [-> _]]. now eexists.
Qed.

Lemma matches_of_without (text : jsstring) (re : regex captures)
      (mu : jsstring) (c : code_unit) :
  (forall s x, re s = Some x -> exists t, s = c :: t) ->
  ~ In c text -> matches_of text (re, mu) = [].
Proof.
  intros Hre Hc. unfold matches_of. cbn [fst].
  now rewrite (matchAll_without re c Hre text Hc).
Qed.

(** X22. A text with none of the five code units that open a pattern (the
    star, the underscore, the backquote, the tilde and the opening square
    bracket) gives one plain node with the whole text, and no node at all
    when it is empty. *)
Theorem plain_text_one_node (text : jsstring) :
  (forall c, In c [42%N; 95%N; 96%N; 126%N; 91%N] -> ~ In c text) ->
  processInlineMarkdown text
  = match text with
    | [] => []
    | _ :: _ => [mkTextNode (str "text") (Some text) []]
    end.
Proof.
  intros H.
  assert (Hnone : allMatches text = []).
  { unfold allMatches, patterns. cbn [flat_map].
    rewrite (matches_of_without text _ _ 42%N
               (delimited_starts "**" "**" _ _ eq_refl))
      by (apply H; simpl; tauto).
    rewrite (matches_of_without text _ _ 42%N
               (delimited_starts "*" "*" _ _ eq_refl))
      by (apply H; simpl; tauto).
    rewrite (matches_of_without text _ _ 95%N
               (delimited_starts "_" "_" _ _ eq_refl))
      by (apply H; simpl; tauto).
    rewrite (matches_of_without text _ _ 96%N
               (delimited_starts "`" "`" _ _ eq_refl))
      by (apply H; simpl; tauto).
    rewrite (matches_of_without text _ _ 126%N
               (delimited_starts "~~" "~~" _ _ eq_refl))
      by (apply H; simpl; tauto).
    rewrite (matches_of_without text _ _ 91%N link_starts)
      by (apply H; simpl; tauto).
    reflexivity. }
  unfold processInlineMarkdown. rewrite Hnone. cbn [sort_by_start List.length
    remove_overlaps assemble].
  destruct text as [|c t]; [reflexivity|].
  cbn [Nat.ltb Nat.leb List.length]. unfold plain, substring.
  rewrite Nat.min_id, Nat.min_0_l, Nat.max_0_l, Nat.min_0_l, Nat.sub_0_r.
  cbn [skipn]. now rewrite firstn_all.
Qed.

Lemma plain_text_one_node_witness :
  processInlineMarkdown (str "no marks here")
  = [mkTextNode (str "text") (Some (str "no marks here")) []].
Proof.
  apply (plain_text_one_node (str "no marks here")).
  intros c Hc. vm_compute in Hc. vm_compute.
  intuition (subst; discriminate).
Defined.

End InlineFacts.

(* ================================================================== *)
(** ** From the markup to the edit *)
(* ================================================================== *)

Section Forward.
Import Js Regex.
Context {R : Type}.






End Forward.

Section MarkupToEdit.
Import Js Regex Markup.










Section OneMatch.
Context {C : Type} (re : regex C).
Hypothesis starts_with_bracket :
  forall s x, re s = Some x -> exists t, s = LT :: t.








End OneMatch.



















End MarkupToEdit.
